(** * AI_Travel_Agent.py: a shallow embedding and its checked properties

    The Python module stitches language-model text, a geocoder, a weather
    service, an earthquake catalogue and an RSS feed into a travel report.
    What is modelled here:

    - Python [str] values as sequences of Unicode code points, with
      [str.strip], [str.splitlines], [in], [startswith] and [", ".join];
    - the two regular expressions of the module, as the trees
      [re] compiles them to, with a backtracking matcher;
    - the dynamically typed values that [json] produces, with subscripting
      and truthiness, and exceptions as an error monad;
    - the outside world (HTTP responses, the feed, the model backends) as
      parameters of the functions that talk to it. *)

From Stdlib Require Import String Ascii DecimalString.
From Stdlib Require Import NArith ZArith Bool Lia List.
Import ListNotations.

Set Implicit Arguments.

(* ===================================================================== *)
(** * Text *)
(* ===================================================================== *)

Module Text.

(** A character is a Unicode code point; a Python [str] is a list of them. *)
Definition char := N.
Definition str := list char.

(** ASCII literals of the source, read byte by byte. *)
Definition txt (s : string) : str := map N_of_ascii (list_ascii_of_string s).

Definition rupee : char := 8377%N.   (* U+20B9 *)
Definition dollar : char := 36%N.
Definition backslash : char := 92%N.
Definition dquote : char := 34%N.
Definition LF : char := 10%N.
Definition CR : char := 13%N.

Local Open Scope N_scope.

Fixpoint str_eqb (a b : str) : bool :=
  match a, b with
  | [], [] => true
  | x :: a', y :: b' => (x =? y) && str_eqb a' b'
  | _, _ => false
  end.

(** [str.isspace] on one code point (the table of CPython 3.11). *)
Definition is_space (c : char) : bool :=
  ((9 <=? c) && (c <=? 13)) || ((28 <=? c) && (c <=? 32))
  || (c =? 133) || (c =? 160) || (c =? 5760)
  || ((8192 <=? c) && (c <=? 8202))
  || (c =? 8232) || (c =? 8233) || (c =? 8239) || (c =? 8287) || (c =? 12288).

(** The line boundaries [str.splitlines] splits on. *)
Definition is_linebreak (c : char) : bool :=
  ((10 <=? c) && (c <=? 13)) || ((28 <=? c) && (c <=? 30))
  || (c =? 133) || (c =? 8232) || (c =? 8233).

Fixpoint drop_while (p : char -> bool) (s : str) : str :=
  match s with
  | [] => []
  | c :: s' => if p c then drop_while p s' else s
  end.

Definition lstrip (s : str) : str := drop_while is_space s.
Definition rstrip (s : str) : str := rev (drop_while is_space (rev s)).

(** [s.strip()] *)
Definition strip (s : str) : str := rstrip (lstrip s).

(** [s.startswith(p)] *)
Fixpoint startswith (p s : str) : bool :=
  match p, s with
  | [], _ => true
  | a :: p', b :: s' => (a =? b) && startswith p' s'
  | _ :: _, [] => false
  end.

(** [needle in hay] *)
Fixpoint contains (needle hay : str) : bool :=
  startswith needle hay
  || match hay with
     | [] => false
     | _ :: hay' => contains needle hay'
     end.

(** [s.splitlines()]: [cur] is the line being read, newest character
    first. A carriage return followed by a line feed is one boundary, and
    a text that ends on a boundary has no empty last line. *)
Fixpoint splitlines_from (cur : str) (s : str) : list str :=
  match s with
  | [] => match cur with [] => [] | _ :: _ => [rev cur] end
  | c :: s' =>
      if is_linebreak c then
        rev cur ::
          match s' with
          | d :: s'' => if (c =? CR) && (d =? LF) then splitlines_from [] s''
                        else splitlines_from [] s'
          | [] => splitlines_from [] s'
          end
      else splitlines_from (c :: cur) s'
  end.

Definition splitlines (s : str) : list str := splitlines_from [] s.

(** [sep.join(parts)] *)
Fixpoint join (sep : str) (parts : list str) : str :=
  match parts with
  | [] => []
  | [p] => p
  | p :: rest => p ++ sep ++ join sep rest
  end.

(** The first code point of each run of ten decimal digits (general
    category Nd, Unicode 14.0, the database of CPython 3.11). *)
Definition decimal_zeros : list char :=
  [48; 1632; 1776; 1984; 2406; 2534; 2662; 2790; 2918; 3046; 3174; 3302;
   3430; 3558; 3664; 3792; 3872; 4160; 4240; 6112; 6160; 6470; 6608; 6784;
   6800; 6992; 7088; 7232; 7248; 42528; 43216; 43264; 43472; 43504; 43600;
   44016; 65296; 66720; 68912; 69734; 69872; 69942; 70096; 70384; 70736;
   70864; 71248; 71360; 71472; 71904; 72016; 72784; 73040; 73120; 92768;
   92864; 93008; 120782; 120792; 120802; 120812; 120822; 123200; 123632;
   125264; 130032].

Fixpoint digit_in (zeros : list char) (c : char) : option N :=
  match zeros with
  | [] => None
  | z :: zeros' => if (z <=? c) && (c <? z + 10) then Some (c - z)
                   else digit_in zeros' c
  end.

(** The decimal value of a code point, when it is a decimal digit. *)
Definition digit_value (c : char) : option N := digit_in decimal_zeros c.

Definition is_decimal (c : char) : bool :=
  match digit_value c with Some _ => true | None => false end.

(** [int(s)] on a run of decimal digits (characters that are no digit
    count as zero; the callers only pass what [\d+] matched). The
    interpreter's adjustable limit on the number of digits that [int]
    accepts is left out. *)
Definition int_of_digits (s : str) : Z :=
  fold_left (fun acc c =>
               match digit_value c with
               | Some d => (10 * acc + Z.of_N d)%Z
               | None => (10 * acc)%Z
               end) s 0%Z.

(** [str(n)] for an integer. *)
Definition str_of_Z (n : Z) : str :=
  txt (NilZero.string_of_int (Z.to_int n)).

End Text.

Import Text.

(* ===================================================================== *)
(** * Regular expressions *)
(* ===================================================================== *)

Module Re.

(** The shapes [re] parses the module's two patterns into: a one-character
    test ([LITERAL], [ANY], [IN], [RANGE], [CATEGORY_DIGIT]), a sequence,
    a [BRANCH], a greedy [MAX_REPEAT] of a one-character test with a lower
    bound and no upper bound, and the capturing [SUBPATTERN] number 1. *)
Inductive regex : Type :=
| Chr (p : char -> bool)
| Seq (a b : regex)
| Branch (a b : regex)
| MaxRepeat (lo : nat) (p : char -> bool)
| Group (a : regex).

Definition literal (c : char) : char -> bool := fun x => (x =? c)%N.
(** [.] without [re.DOTALL]: anything but a line feed. *)
Definition any : char -> bool := fun x => negb (x =? LF)%N.
Definition range (lo hi : char) : char -> bool :=
  fun x => ((lo <=? x) && (x <=? hi))%N.
Definition one_of (ps : list (char -> bool)) : char -> bool :=
  fun x => existsb (fun p => p x) ps.

(** Greedy repetition: take one more character when possible, and give
    characters back one at a time while the rest of the pattern fails,
    never below [lo] repetitions. *)
Fixpoint max_repeat {T} (p : char -> bool) (lo : nat) (s : str)
    (k : str -> option T) : option T :=
  match s with
  | c :: s' =>
      if p c then
        match max_repeat p (pred lo) s' k with
        | Some r => Some r
        | None => match lo with O => k s | S _ => None end
        end
      else match lo with O => k s | S _ => None end
  | [] => match lo with O => k s | S _ => None end
  end.

(** Backtracking match of [r] at the head of [s]; [g] is the text of
    group 1 so far and [k] the rest of the pattern. *)
Fixpoint rmatch {T} (r : regex) (s : str) (g : option str)
    (k : str -> option str -> option T) : option T :=
  match r with
  | Chr p =>
      match s with
      | c :: s' => if p c then k s' g else None
      | [] => None
      end
  | Seq a b => rmatch a s g (fun s1 g1 => rmatch b s1 g1 k)
  | Branch a b =>
      match rmatch a s g k with
      | Some x => Some x
      | None => rmatch b s g k
      end
  | MaxRepeat lo p => max_repeat p lo s (fun s1 => k s1 g)
  | Group a =>
      rmatch a s g
        (fun s1 _ => k s1 (Some (firstn (length s - length s1) s)))
  end.

(** A match at the head of [s]: group 1 and the unread rest. *)
Definition match_here (r : regex) (s : str) : option (option str * str) :=
  rmatch r s None (fun rest g => Some (g, rest)).

(** [m.group(1)], the empty string standing for a group that took no part. *)
Definition group1 (g : option str) : str :=
  match g with Some t => t | None => [] end.

(** [re.search(r, s)]: the leftmost match, as its group 1. *)
Fixpoint search (r : regex) (s : str) : option str :=
  match match_here r s with
  | Some (g, _) => Some (group1 g)
  | None =>
      match s with
      | [] => None
      | _ :: s' => search r s'
      end
  end.

(** [re.findall(r, s)] for a pattern with one group: the group of each
    non-overlapping match, left to right. After a match the scan resumes
    where the match ended (one character on when the match was empty). *)
Fixpoint findall_from (fuel : nat) (r : regex) (s : str) : list str :=
  match fuel with
  | O => []
  | S fuel' =>
      match match_here r s with
      | Some (g, rest) =>
          group1 g ::
            (if (length rest <? length s)%nat then findall_from fuel' r rest
             else match s with
                  | [] => []
                  | _ :: s' => findall_from fuel' r s'
                  end)
      | None =>
          match s with
          | [] => []
          | _ :: s' => findall_from fuel' r s'
          end
      end
  end.

Definition findall (r : regex) (s : str) : list str :=
  findall_from (S (length s)) r s.

End Re.

Import Re.

(* ===================================================================== *)
(** * Text extraction: [travel_guide] and [calculate_total_cost] *)
(* ===================================================================== *)

(** An insertion-ordered [dict], as the list of its items. *)
Definition dict (V : Type) := list (str * V).

(** [d[k] = v]: a key already present keeps its place, a new key goes last. *)
Fixpoint dict_setitem {V} (d : dict V) (k : str) (v : V) : dict V :=
  match d with
  | [] => [(k, v)]
  | (k', v') :: d' =>
      if str_eqb k' k then (k', v) :: d'
      else (k', v') :: dict_setitem d' k v
  end.

(** [dict.fromkeys(keys)] *)
Definition dict_fromkeys (keys : list str) : dict unit :=
  fold_left (fun d k => dict_setitem d k tt) keys [].

(** [list(d)] *)
Definition dict_keys {V} (d : dict V) : list str := map fst d.

(** The pattern of line 27 as [re] reads it. The literal is a raw string
    whose backslashes are doubled, so each [\\] is one literal backslash
    and the letter or sign after it stands for itself:

    [(?:1\\.|2\\.|3\\.|\\-)]  a digit 1, 2 or 3, a backslash and any one
                              character, or a backslash and a hyphen;
    [\\s*]                    a backslash, then any number of letters s;
    [([A-Z][\\w\\s,'&\\-]+)]  group 1: a capital letter, then one or more
                              of backslash, w, s, comma, quote, ampersand
                              and hyphen. *)
Definition attraction_class : char -> bool :=
  one_of [literal backslash; literal 119%N; literal 115%N; literal 44%N;
          literal 39%N; literal 38%N; literal 45%N].

Definition attraction_regex : regex :=
  Seq (Branch (Seq (Chr (literal 49%N)) (Seq (Chr (literal backslash)) (Chr any)))
      (Branch (Seq (Chr (literal 50%N)) (Seq (Chr (literal backslash)) (Chr any)))
      (Branch (Seq (Chr (literal 51%N)) (Seq (Chr (literal backslash)) (Chr any)))
              (Seq (Chr (literal backslash)) (Chr (literal 45%N))))))
 (Seq (Chr (literal backslash))
 (Seq (MaxRepeat 0 (literal 115%N))
      (Group (Seq (Chr (range 65%N 90%N)) (MaxRepeat 1 attraction_class))))).

(** Lines 27, 28 and 31 of [travel_guide]: the value stored under
    ["attractions"], computed from the text of the model's answer. *)
Definition extract_attractions (full_response : str) : list str :=
  let attraction_pattern := findall attraction_regex full_response in
  let attractions :=
    dict_keys (dict_fromkeys
      (map strip
         (filter (fun a => (3 <? length (strip a))%nat) attraction_pattern))) in
  firstn 3 attractions.

(** The pattern of line 177, [[₹\$](\d+)]: a rupee or dollar sign,
    then group 1, one or more decimal digits. *)
Definition is_currency : char -> bool := one_of [literal rupee; literal dollar].

Definition cost_regex : regex :=
  Seq (Chr is_currency) (Group (MaxRepeat 1 is_decimal)).

Definition estimated_cost : str := txt "Estimated cost".

(** [calculate_total_cost] (lines 173-180). *)
Definition calculate_total_cost (itinerary_text : str) : Z :=
  let cost_lines :=
    filter (fun line => contains estimated_cost line)
           (splitlines itinerary_text) in
  fold_left
    (fun total_cost line =>
       match search cost_regex line with
       | Some digits => (total_cost + int_of_digits digits)%Z
       | None => total_cost
       end)
    cost_lines 0%Z.

(* ===================================================================== *)
(** * Exceptions and dynamically typed values *)
(* ===================================================================== *)

(** The exception classes the module can meet; all derive from
    [Exception], so every [except Exception] clause catches them. *)
Inductive exn : Type :=
| KeyError | IndexError | TypeError | AttributeError | ValueError
| JSONDecodeError | RequestException | BackendError.

(** The outcome of evaluating an expression: a value, or a raised
    exception that unwinds to the nearest handler. *)
Inductive res (A : Type) : Type :=
| Return (a : A)
| Raise (e : exn).
Arguments Raise {A} e.

Definition bind {A B} (m : res A) (f : A -> res B) : res B :=
  match m with
  | Return a => f a
  | Raise e => Raise e
  end.

Declare Scope res_scope.
Delimit Scope res_scope with res.
Notation "x <- m ;; k" := (bind m (fun x => k))
  (at level 61, m at next level, right associativity) : res_scope.
Local Open Scope res_scope.

(** [try: x = body / except Exception: x = fallback] *)
Definition try_except {A} (body : res A) (fallback : A) : A :=
  match body with
  | Return a => a
  | Raise _ => fallback
  end.

(** [for x in xs: acc = step(acc, x)], where the body may raise. *)
Fixpoint for_each {A B} (xs : list A) (acc : B) (step : B -> A -> res B)
  : res B :=
  match xs with
  | [] => Return acc
  | x :: xs' => acc' <- step acc x ;; for_each xs' acc' step
  end.

Fixpoint dict_lookup {V} (d : dict V) (k : str) : option V :=
  match d with
  | [] => None
  | (k', v) :: d' => if str_eqb k' k then Some v else dict_lookup d' k
  end.

Section Program.

(** Python's [float] is left abstract: the module only stores floats and
    hands them on. *)
Variable float : Type.
(** [bool(x)] for a float. *)
Variable float_truthy : float -> bool.

(** What [json] decoding produces. *)
#[warnings="-register-all"]
Inductive pyval : Type :=
| PNone
| PBool (b : bool)
| PInt (z : Z)
| PFloat (f : float)
| PStr (s : str)
| PList (l : list pyval)
| PDict (d : list (str * pyval)).

(** [bool(v)] *)
Definition truthy (v : pyval) : bool :=
  match v with
  | PNone => false
  | PBool b => b
  | PInt z => negb (z =? 0)%Z
  | PFloat f => float_truthy f
  | PStr s => match s with [] => false | _ :: _ => true end
  | PList l => match l with [] => false | _ :: _ => true end
  | PDict d => match d with [] => false | _ :: _ => true end
  end.

(** [v[k]] with a string key. *)
Definition getitem_key (v : pyval) (k : str) : res pyval :=
  match v with
  | PDict d =>
      match dict_lookup d k with
      | Some x => Return x
      | None => Raise KeyError
      end
  | _ => Raise TypeError
  end.

(** [v[0]]; the keys of a decoded object are strings, so an object has
    no item 0. *)
Definition getitem_0 (v : pyval) : res pyval :=
  match v with
  | PList l => match l with x :: _ => Return x | [] => Raise IndexError end
  | PStr s => match s with c :: _ => Return (PStr [c]) | [] => Raise IndexError end
  | PDict _ => Raise KeyError
  | _ => Raise TypeError
  end.

(** [v.get(k, default)]; only a [dict] has the method. *)
Definition method_get (v : pyval) (k : str) (default : pyval) : res pyval :=
  match v with
  | PDict d =>
      match dict_lookup d k with
      | Some x => Return x
      | None => Return default
      end
  | _ => Raise AttributeError
  end.

(** The items a [for] loop draws from [v]. *)
Definition iterate (v : pyval) : res (list pyval) :=
  match v with
  | PList l => Return l
  | PDict d => Return (map (fun kv => PStr (fst kv)) d)
  | PStr s => Return (map (fun c => PStr [c]) s)
  | _ => Raise TypeError
  end.

(** [v.lower()]; only a [str] has the method. *)
Variable lower : str -> str.

Definition method_lower (v : pyval) : res str :=
  match v with
  | PStr s => Return (lower s)
  | _ => Raise AttributeError
  end.

(* ===================================================================== *)
(** * [calamity_forecast] *)
(* ===================================================================== *)

(** [float(v)], raising on what it cannot convert. *)
Variable float_of : pyval -> res float.

(** [datetime.utcfromtimestamp(t / 1000).strftime('%Y-%m-%d %H:%M:%S')]
    as a function of [t]; it raises on what is no number or out of range. *)
Variable utc_time_text : pyval -> res str.

(** The dates come in from the caller and go out in the query strings. *)
Variable date : Type.

(** The three [requests.get] calls, each with the parameters that vary:
    - [geo_request q]: [geo_url] with [{"q": q, "format": "json"}] and the
      [User-Agent] header;
    - [weather_request]: [weather_url] with the coordinates, the daily
      temperature and precipitation fields, [timezone=auto], the dates;
    - [usgs_request]: [usgs_url] with [format=geojson], the dates and
      [minmagnitude=4.5]. *)
Inductive request : Type :=
| geo_request (q : str)
| weather_request (latitude longitude : float) (start_date end_date : date)
| usgs_request (starttime endtime : date).

(** A response is known by what its [.json()] does: decode or raise. *)
Definition response : Type := res pyval.

(** [requests.get]: a response, or an exception when the service cannot
    be reached. *)
Variable requests_get : request -> res response.

(** An entry of the parsed feed; reading an attribute it lacks raises
    [AttributeError]. *)
Record entry : Type := {
  entry_title : option str;
  entry_summary : option str;
  entry_link : option str
}.

Definition attribute {A} (a : option A) : res A :=
  match a with
  | Some x => Return x
  | None => Raise AttributeError
  end.

(** [feedparser.parse(url).entries] *)
Variable feedparser_entries : str -> res (list entry).

Record earthquake : Type := {
  place : pyval;
  magnitude : pyval;
  time : str;
  url : pyval
}.

Record alert : Type := {
  event : str;
  details : str;
  link : str
}.

(** A field that holds either a list or the text that stands in for it. *)
Inductive listing (A : Type) : Type :=
| Items (l : list A)
| Marker (s : str).
Arguments Marker {A} s.

Definition geo_parse_error : str :=
  txt "Failed to parse geolocation response. Possibly blocked or invalid.".
Definition location_not_found (city : str) : str :=
  txt "Location '" ++ city ++ txt "' not found.".
Definition weather_failed : str :=
  txt "Weather API failed or returned invalid data".
Definition usgs_failed : str := txt "USGS data unavailable or failed to decode".
Definition no_gdacs_alerts : str := txt "No GDACS disaster alerts found.".
Definition gdacs_failed : str := txt "Failed to fetch GDACS alerts".
Definition gdacs_url : str := txt "https://www.gdacs.org/xml/rss.xml".

(** What the function returns: the [{"error": ...}] dict of lines 43 and
    45, or the 5-tuple of line 102. *)
Inductive forecast : Type :=
| error_dict (error : str)
| report (city : str) (lat lon : float) (weather_data : pyval)
         (gdacs_alerts : listing alert).

(** Lines 58-62: the weather field. *)
Definition weather_field (weather_response : response) : pyval :=
  try_except
    (body <- weather_response ;; method_get body (txt "daily") (PDict []))
    (PStr weather_failed).

(** Lines 76-83: one turn of the loop over the features. *)
Definition earthquake_step (city : str) (earthquakes : list earthquake)
    (eq : pyval) : res (list earthquake) :=
  properties <- getitem_key eq (txt "properties") ;;
  place_info <- getitem_key properties (txt "place") ;;
  lowered <- method_lower place_info ;;
  if contains (lower city) lowered then
    properties <- getitem_key eq (txt "properties") ;;
    mag <- getitem_key properties (txt "mag") ;;
    properties <- getitem_key eq (txt "properties") ;;
    millis <- getitem_key properties (txt "time") ;;
    when <- utc_time_text millis ;;
    properties <- getitem_key eq (txt "properties") ;;
    link <- getitem_key properties (txt "url") ;;
    Return (earthquakes ++
            [{| place := place_info; magnitude := mag;
                time := when; url := link |}])
  else Return earthquakes.

(** Lines 72-85: the local [earthquakes]. *)
Definition earthquakes_of (city : str) (usgs_response : response)
  : listing earthquake :=
  try_except
    (usgs_data <- usgs_response ;;
     features <- method_get usgs_data (txt "features") (PList []) ;;
     features <- iterate features ;;
     found <- for_each features [] (earthquake_step city) ;;
     Return (Items found))
    (Marker usgs_failed).

(** Lines 91-96: one turn of the loop over the feed entries. The summary
    is only read when the title does not name the city. *)
Definition alert_step (city : str) (gdacs_alerts : list alert) (e : entry)
  : res (list alert) :=
  title <- attribute (entry_title e) ;;
  matched <- (if contains (lower city) (lower title) then Return true
              else summary <- attribute (entry_summary e) ;;
                   Return (contains (lower city) (lower summary))) ;;
  if (matched : bool) then
    title <- attribute (entry_title e) ;;
    summary <- attribute (entry_summary e) ;;
    target <- attribute (entry_link e) ;;
    Return (gdacs_alerts ++
            [{| event := title; details := summary; link := target |}])
  else Return gdacs_alerts.

(** Lines 87-100: the alert field. *)
Definition alerts_field (city : str) : listing alert :=
  try_except
    (entries <- feedparser_entries gdacs_url ;;
     gdacs_alerts <- for_each entries [] (alert_step city) ;;
     Return (match gdacs_alerts with
             | [] => Marker no_gdacs_alerts
             | _ :: _ => Items gdacs_alerts
             end))
    (Marker gdacs_failed).

(** Lines 49-102: what follows the geocoding, given the coordinates. *)
Definition hazards (city : str) (lat lon : float) (start_date end_date : date)
  : res forecast :=
  weather_response <- requests_get (weather_request lat lon start_date end_date) ;;
  let weather_data := weather_field weather_response in
  usgs_response <- requests_get (usgs_request start_date end_date) ;;
  let earthquakes := earthquakes_of city usgs_response in
  let gdacs_alerts := alerts_field city in
  Return (report city lat lon weather_data gdacs_alerts).

(** [calamity_forecast] (lines 35-102). An exception that no handler of
    the function catches leaves it as [Raise]. *)
Definition calamity_forecast (city : str) (start_date end_date : date)
  : res forecast :=
  geo_response <- requests_get (geo_request city) ;;
  match geo_response with
  | Raise _ => Return (error_dict geo_parse_error)
  | Return geo_data =>
      if negb (truthy geo_data) then
        Return (error_dict (location_not_found city))
      else
        first <- getitem_0 geo_data ;;
        lat_text <- getitem_key first (txt "lat") ;;
        lat <- float_of lat_text ;;
        first <- getitem_0 geo_data ;;
        lon_text <- getitem_key first (txt "lon") ;;
        lon <- float_of lon_text ;;
        hazards city lat lon start_date end_date
  end.

(* ===================================================================== *)
(** * [generate_summary] *)
(* ===================================================================== *)

(** [json.loads], raising on text that is no JSON document. *)
Variable json_loads : str -> res pyval.

(** [str(v)] for a value that is no [str]. *)
Variable text_of : pyval -> str.

(** [f"{v}"] *)
Definition format_value (v : pyval) : str :=
  match v with
  | PStr s => s
  | _ => text_of v
  end.

Definition hotel_unavailable : str := txt "Hotel data unavailable".
Definition not_applicable : str := txt "N/A".

(** Lines 184-191: the local [top_hotel]. *)
Definition top_hotel_of (hotel_info : str) : pyval :=
  try_except
    (let hotel_info := strip hotel_info in
     if negb (startswith (txt "[") hotel_info) then Raise ValueError
     else
       hotel_data <- json_loads hotel_info ;;
       if truthy hotel_data then
         first <- getitem_0 hotel_data ;;
         getitem_key first (txt "name")
       else Return (PStr not_applicable))
    (PStr hotel_unavailable).

(** Lines 193-201: the f-string and the final [strip]. *)
Definition summary_text (city : str) (days : Z) (attractions : list str)
    (top_hotel : pyval) (total_cost : Z) : str :=
  strip ([LF] ++ txt "Trip Summary:" ++ [LF]
         ++ txt "City: " ++ city ++ [LF]
         ++ txt "Duration: " ++ str_of_Z days ++ txt " days" ++ [LF]
         ++ txt "Top Attractions: " ++ join (txt ", ") attractions ++ [LF]
         ++ txt "Recommended Hotel: " ++ format_value top_hotel ++ [LF]
         ++ txt "Estimated Total Trip Cost: " ++ [rupee]
         ++ str_of_Z total_cost ++ [LF]).

(** [generate_summary] (lines 183-201). *)
Definition generate_summary (city : str) (days : Z) (attractions : list str)
    (hotel_info : str) (total_cost : Z) : str :=
  summary_text city days attractions (top_hotel_of hotel_info) total_cost.

(* ===================================================================== *)
(** * The planning pipeline *)
(* ===================================================================== *)

(** The three prompt templates of the module, by name. *)
Inductive template : Type := travel_prompt | prompt | itinerary_prompt.

(** [t.format] applied to the named fields. *)
Variable format_template : template -> list (str * pyval) -> str.

(** The text-generation backends answer as they please and may fail;
    [World] is whatever decides their answers. *)
Variable World : Type.
(** [model.invoke(p).content] *)
Variable model_invoke : str -> World -> res str * World.
(** [itinerary_model.invoke(p).content] *)
Variable itinerary_model_invoke : str -> World -> res str * World.

(** What a run leaves behind: the backend invocations and the calls of
    [generate_itinerary], oldest first. *)
Inductive action : Type :=
| invoked_model (prompt_text : str)
| invoked_itinerary_model (input_prompt : str)
| called_generate_itinerary (city : str) (days : Z)
    (attractions adventure_sports : list str).

Record state : Type := { world : World; log : list action }.

(** A computation that reads and changes the world and may raise. *)
Definition M (A : Type) : Type := state -> res A * state.

Definition ret {A} (a : A) : M A := fun st => (Return a, st).

Definition bindM {A B} (m : M A) (f : A -> M B) : M B :=
  fun st =>
    match m st with
    | (Return a, st') => f a st'
    | (Raise e, st') => (Raise e, st')
    end.

Definition record (e : action) : M unit :=
  fun st => (Return tt, {| world := world st; log := log st ++ [e] |}).

Definition backend (invoke : str -> World -> res str * World) (p : str)
  : M str :=
  fun st =>
    let (answer, w) := invoke p (world st) in
    (answer, {| world := w; log := log st |}).

Declare Scope plan_scope.
Delimit Scope plan_scope with plan.
Notation "x <- m ;; k" := (bindM m (fun x => k))
  (at level 61, m at next level, right associativity) : plan_scope.
Notation "m ;; k" := (bindM m (fun _ => k))
  (at level 61, right associativity) : plan_scope.

Record guide : Type := {
  guide_city : str;
  guide_attractions : list str;
  full_guide : str
}.

(** [travel_guide] (lines 24-33). *)
Definition travel_guide (city : str) : M guide :=
  (let prompt_text := format_template travel_prompt [(txt "city", PStr city)] in
   record (invoked_model prompt_text) ;;
   full_response <- backend model_invoke prompt_text ;;
   ret {| guide_city := city;
          guide_attractions := extract_attractions full_response;
          full_guide := full_response |})%plan.

(** [hotel_recommender] (lines 128-131). *)
Definition hotel_recommender (city : str) : M str :=
  (let input_text := format_template prompt [(txt "city", PStr city)] in
   record (invoked_model input_text) ;;
   backend model_invoke input_text)%plan.

(** [generate_itinerary] (lines 160-170). *)
Definition generate_itinerary (city : str) (days : Z)
    (attractions adventure_sports : list str) : M str :=
  (record (called_generate_itinerary city days attractions adventure_sports) ;;
   let attractions_str := join (txt ", ") attractions in
   let adventure_str := join (txt ", ") adventure_sports in
   let input_prompt :=
     format_template itinerary_prompt
       [(txt "city", PStr city); (txt "days", PInt days);
        (txt "attractions", PStr attractions_str);
        (txt "adventure_sports", PStr adventure_str)] in
   record (invoked_itinerary_model input_prompt) ;;
   backend itinerary_model_invoke input_prompt)%plan.

(** [main_travel_planner] (lines 204-212). *)
Definition main_travel_planner (city : str) (days : Z)
  : M (str * str * str * str * str) :=
  (guide <- travel_guide city ;;
   let attractions := guide_attractions guide in
   let adventure_sports := [txt "Paragliding"; txt "Jet Skiing"] in
   itinerary <- generate_itinerary city days attractions adventure_sports ;;
   hotel_data <- hotel_recommender city ;;
   let total_cost := calculate_total_cost itinerary in
   let summary := generate_summary city days attractions hotel_data total_cost in
   ret (full_guide guide, itinerary, hotel_data,
        [rupee] ++ str_of_Z total_cost, summary))%plan.

(* ===================================================================== *)
(** * The vocabulary of the properties *)
(* ===================================================================== *)

(** Membership and the place of the first occurrence, as the vocabulary
    for "no duplicates, in first-seen order". *)
Definition mem (x : str) (l : list str) : bool :=
  existsb (fun y => str_eqb y x) l.

Fixpoint first_index (x : str) (l : list str) : nat :=
  match l with
  | [] => O
  | y :: l' => if str_eqb y x then O else S (first_index x l')
  end.

(** The keys not yet in [seen], each at its first occurrence. *)
Fixpoint first_seen (seen l : list str) : list str :=
  match l with
  | [] => []
  | x :: l' => if mem x seen then first_seen seen l'
               else x :: first_seen (seen ++ [x]) l'
  end.

(** A text that holds no backslash. *)
Definition no_backslash (s : str) : bool :=
  forallb (fun c => negb (c =? backslash)%N) s.

(** The numbered list of the specification's first test. *)
Definition numbered_guide : str :=
  txt "1. Red Fort - ..." ++ [LF]
  ++ txt "2. India Gate - ..." ++ [LF]
  ++ txt "3. Lotus Temple - ...".

(** Two characters that are equal, or are both one of the two signs the
    cost pattern accepts; two texts that agree up to such signs. *)
Definition same_but_symbol (a b : char) : Prop :=
  a = b \/ (is_currency a = true /\ is_currency b = true).

Definition same_but_symbols : str -> str -> Prop := Forall2 same_but_symbol.

(** Results of a match that agree: both fail, or both succeed alike. *)
Definition both {T} (Q : T -> T -> Prop) (x y : option T) : Prop :=
  match x, y with
  | Some a, Some b => Q a b
  | None, None => True
  | _, _ => False
  end.

(** A pattern none of whose one-character tests tells the two signs apart. *)
Fixpoint symbol_blind (r : regex) : Prop :=
  match r with
  | Chr p => p rupee = p dollar
  | Seq a b | Branch a b => symbol_blind a /\ symbol_blind b
  | MaxRepeat _ p => p rupee = p dollar
  | Group a => symbol_blind a
  end.

(** A text that holds neither sign. *)
Definition plain (s : str) : bool :=
  forallb (fun c => negb (is_currency c)) s.

(** The itinerary of the specification's third test. *)
Definition two_day_itinerary : str :=
  txt "Day 1:" ++ [LF]
  ++ txt "- Estimated cost: " ++ [rupee] ++ txt "500" ++ [LF]
  ++ txt "Day 2:" ++ [LF]
  ++ txt "- Estimated cost: $200".

(** A hotel text has the shape of a structured list when, stripped, it
    opens with a bracket and decodes, and what it decodes to is empty or
    has a first item with a name. *)
Definition structured_list (hotel_info : str) : Prop :=
  startswith (txt "[") (strip hotel_info) = true
  /\ exists hotel_data,
       json_loads (strip hotel_info) = Return hotel_data
       /\ (truthy hotel_data = false
           \/ exists name,
                (first <- getitem_0 hotel_data ;;
                 getitem_key first (txt "name")) = Return name).

(** The log entries that are calls of [generate_itinerary]. *)
Definition is_itinerary_call (a : action) : bool :=
  match a with
  | called_generate_itinerary _ _ _ _ => true
  | _ => false
  end.

(* ===================================================================== *)
(** * Facts on text, dictionaries and matching *)
(* ===================================================================== *)

Lemma str_eqb_eq (a b : str) : str_eqb a b = true <-> a = b.
Proof.
  revert b; induction a as [|x a IH]; intros [|y b]; simpl; split;
    try easy.
  - rewrite andb_true_iff, N.eqb_eq, IH. now intros [-> ->].
  - intros H; injection H as -> ->. rewrite N.eqb_refl. now apply IH.
Qed.

Lemma str_eqb_refl (a : str) : str_eqb a a = true.
Proof. now apply str_eqb_eq. Qed.

Lemma str_eqb_neq (a b : str) : str_eqb a b = false <-> a <> b.
Proof.
  rewrite <- str_eqb_eq. destruct (str_eqb a b); split; congruence.
Qed.

Lemma drop_while_idem p s : drop_while p (drop_while p s) = drop_while p s.
Proof.
  induction s as [|c s IH]; simpl; auto.
  destruct (p c) eqn:E; auto. simpl. now rewrite E.
Qed.

Lemma drop_while_head p s c t : drop_while p s = c :: t -> p c = false.
Proof.
  induction s as [|d s IH]; simpl; try discriminate.
  destruct (p d) eqn:E; auto. intros H; injection H as -> _. exact E.
Qed.

Lemma drop_while_stop p x c y :
  p c = false -> drop_while p (x ++ c :: y) = drop_while p x ++ c :: y.
Proof.
  intros H; induction x as [|d x IH]; simpl.
  - now rewrite H.
  - destruct (p d); auto.
Qed.

Lemma rstrip_cons c s : is_space c = false -> rstrip (c :: s) = c :: rstrip s.
Proof.
  intros H. unfold rstrip. simpl rev.
  rewrite drop_while_stop by exact H.
  rewrite rev_app_distr. reflexivity.
Qed.

Lemma rstrip_idem s : rstrip (rstrip s) = rstrip s.
Proof. unfold rstrip. now rewrite rev_involutive, drop_while_idem. Qed.

Lemma lstrip_rstrip_lstrip s : lstrip (rstrip (lstrip s)) = rstrip (lstrip s).
Proof.
  unfold lstrip at 2 3. destruct (drop_while is_space s) as [|c t] eqn:E.
  - reflexivity.
  - pose proof (@drop_while_head _ _ _ _ E) as Hc.
    rewrite rstrip_cons by exact Hc. unfold lstrip. simpl. now rewrite Hc.
Qed.

(** Stripping what is already stripped changes nothing. *)
Lemma strip_idem s : strip (strip s) = strip s.
Proof.
  unfold strip. now rewrite lstrip_rstrip_lstrip, rstrip_idem.
Qed.

Lemma mem_In x l : mem x l = true <-> In x l.
Proof.
  unfold mem. rewrite existsb_exists. split.
  - intros (y & Hy & E). apply str_eqb_eq in E. now subst.
  - intros H. exists x. split; auto using str_eqb_refl.
Qed.

Lemma mem_false x l : mem x l = false <-> ~ In x l.
Proof.
  rewrite <- mem_In. destruct (mem x l); split; congruence.
Qed.

Lemma dict_keys_setitem {V} (d : dict V) k v :
  dict_keys (dict_setitem d k v)
  = if mem k (dict_keys d) then dict_keys d else dict_keys d ++ [k].
Proof.
  induction d as [|[k' v'] d IH]; simpl; auto.
  destruct (str_eqb k' k) eqn:E; simpl; auto.
  rewrite IH. unfold dict_keys. now destruct (mem k (map fst d)).
Qed.

Lemma dict_keys_fold (l : list str) (d : dict unit) :
  dict_keys (fold_left (fun d k => dict_setitem d k tt) l d)
  = dict_keys d ++ first_seen (dict_keys d) l.
Proof.
  revert d; induction l as [|x l IH]; intros d; simpl.
  - now rewrite app_nil_r.
  - rewrite IH, dict_keys_setitem. destruct (mem x (dict_keys d)); auto.
    now rewrite <- app_assoc.
Qed.

(** [list(dict.fromkeys(l))] keeps each key once, where it first stood. *)
Lemma dict_fromkeys_first_seen l :
  dict_keys (dict_fromkeys l) = first_seen [] l.
Proof. unfold dict_fromkeys. now rewrite dict_keys_fold. Qed.

Lemma first_seen_In seen l x :
  In x (first_seen seen l) -> ~ In x seen /\ In x l.
Proof.
  revert seen; induction l as [|h l IH]; intros seen; simpl; try easy.
  destruct (mem h seen) eqn:E.
  - intros H. apply IH in H. tauto.
  - intros [<-|H].
    + split; auto. now apply mem_false.
    + apply IH in H. destruct H as [Hn Hi]. split; auto.
      intros Hs. apply Hn, in_or_app. now left.
Qed.

Lemma first_seen_NoDup seen l : NoDup (first_seen seen l).
Proof.
  revert seen; induction l as [|h l IH]; intros seen; simpl.
  - constructor.
  - destruct (mem h seen); auto. constructor; auto.
    intros H. apply first_seen_In in H. destruct H as [Hn _].
    apply Hn, in_or_app. right. now left.
Qed.

Lemma first_index_skip h x l :
  h <> x -> first_index x (h :: l) = S (first_index x l).
Proof. intros H. simpl. apply str_eqb_neq in H. now rewrite H. Qed.

Lemma first_seen_order seen l l1 x l2 y l3 :
  first_seen seen l = l1 ++ x :: l2 ++ y :: l3 ->
  (first_index x l < first_index y l)%nat.
Proof.
  revert seen l1; induction l as [|h l IH]; intros seen l1; simpl first_seen.
  - destruct l1; discriminate.
  - destruct (mem h seen) eqn:E.
    + intros H. apply mem_In in E.
      assert (Hx : In x (first_seen seen l)) by (rewrite H; apply in_elt).
      assert (Hy : In y (first_seen seen l)).
      { rewrite H. apply in_or_app. right. right. apply in_elt. }
      apply first_seen_In in Hx, Hy.
      rewrite !first_index_skip by (intros ->; tauto).
      apply IH in H. lia.
    + destruct l1 as [|a l1]; simpl app; intros H; injection H as Ha H.
      * subst x.
        assert (Hy : In y (first_seen (seen ++ [h]) l)).
        { rewrite H. apply in_elt. }
        apply first_seen_In in Hy. destruct Hy as [Hy _].
        assert (h <> y).
        { intros ->. apply Hy, in_or_app. right. now left. }
        rewrite (@first_index_skip h y) by assumption. simpl.
        rewrite str_eqb_refl. lia.
      * subst a.
        assert (Hx : In x (first_seen (seen ++ [h]) l)) by (rewrite H; apply in_elt).
        assert (Hy : In y (first_seen (seen ++ [h]) l)).
        { rewrite H. apply in_or_app. right. right. apply in_elt. }
        apply first_seen_In in Hx, Hy.
        assert (h <> x).
        { intros ->. apply (proj1 Hx), in_or_app. right. now left. }
        assert (h <> y).
        { intros ->. apply (proj1 Hy), in_or_app. right. now left. }
        rewrite !first_index_skip by assumption.
        apply IH in H. lia.
Qed.

Lemma first_index_filter (q : str -> bool) l x y :
  q x = true -> q y = true ->
  (first_index x (filter q l) < first_index y (filter q l))%nat ->
  (first_index x l < first_index y l)%nat.
Proof.
  intros Hx Hy. induction l as [|h l IH]; simpl filter; auto.
  destruct (q h) eqn:E.
  - simpl. destruct (str_eqb h x) eqn:Ex, (str_eqb h y) eqn:Ey; lia.
  - assert (h <> x) by congruence. assert (h <> y) by congruence.
    rewrite !first_index_skip by assumption. intros H'. apply IH in H'. lia.
Qed.

Lemma map_filter_comm {A B} (f : A -> B) (q : B -> bool) l :
  map f (filter (fun a => q (f a)) l) = filter q (map f l).
Proof.
  induction l as [|a l IH]; simpl; auto.
  destruct (q (f a)); simpl; now rewrite IH.
Qed.

(** The scan of [findall] never needs more fuel than one step per
    character and one more. *)
Lemma findall_from_enough r n m s :
  (length s < n)%nat -> (length s < m)%nat ->
  findall_from n r s = findall_from m r s.
Proof.
  revert m s; induction n as [|n IH]; intros m s Hn Hm; [lia|].
  destruct m as [|m]; [lia|]. simpl.
  assert (Htail : match s with
                  | [] => @nil str
                  | _ :: s' => findall_from n r s'
                  end
                  = match s with
                    | [] => []
                    | _ :: s' => findall_from m r s'
                    end).
  { destruct s as [|c s']; auto. simpl in Hn, Hm. apply IH; lia. }
  destruct (match_here r s) as [[g rest]|]; auto.
  f_equal. destruct (length rest <? length s)%nat eqn:E; auto.
  apply Nat.ltb_lt in E. apply IH; lia.
Qed.

(** Every alternative of the attraction pattern needs a backslash among
    the first two characters it reads. *)
Lemma attraction_match_needs_backslash s :
  no_backslash s = true -> match_here attraction_regex s = None.
Proof.
  unfold no_backslash, match_here, attraction_regex.
  destruct s as [|c0 [|c1 s]]; simpl forallb; cbn [rmatch].
  - reflexivity.
  - intros _.
    now destruct (literal 49%N c0), (literal 50%N c0), (literal 51%N c0),
      (literal backslash c0).
  - intros H. apply andb_true_iff in H as [H0 H].
    apply andb_true_iff in H as [H1 _].
    assert (E0 : literal backslash c0 = false)
      by (unfold literal; now apply negb_true_iff).
    assert (E1 : literal backslash c1 = false)
      by (unfold literal; now apply negb_true_iff).
    rewrite E0, E1.
    now destruct (literal 49%N c0), (literal 50%N c0), (literal 51%N c0).
Qed.

Lemma findall_needs_backslash n s :
  no_backslash s = true -> findall_from n attraction_regex s = [].
Proof.
  revert s; induction n as [|n IH]; intros s H; simpl; auto.
  rewrite attraction_match_needs_backslash by exact H.
  destruct s as [|c s]; auto. apply IH.
  unfold no_backslash in *. simpl in H. now apply andb_true_iff in H.
Qed.

(** A guide text without a backslash yields no attraction at all. *)
Lemma extract_attractions_needs_backslash s :
  no_backslash s = true -> extract_attractions s = [].
Proof.
  intros H. unfold extract_attractions, findall.
  now rewrite findall_needs_backslash.
Qed.

(* ===================================================================== *)
(** * The attraction list of [travel_guide] *)
(* ===================================================================== *)

(** C1 (fails on the code). On the numbered list "1. Red Fort - ...",
    "2. India Gate - ...", "3. Lotus Temple - ..." the extraction of
    [travel_guide] returns the empty list, not the three names: the
    pattern as written asks for a backslash after the digit. *)
Theorem numbered_guide_yields_nothing :
  extract_attractions numbered_guide = []
  /\ extract_attractions numbered_guide
     <> [txt "Red Fort"; txt "India Gate"; txt "Lotus Temple"].
Proof.
  assert (H : extract_attractions numbered_guide = []).
  { apply extract_attractions_needs_backslash. reflexivity. }
  split; [exact H|]. rewrite H. discriminate.
Qed.

(** C9. Whatever the guide text, the attraction list has at most three
    entries, holds no string twice, holds only stripped strings of more
    than three characters, each the stripped text of a match, and lists
    them in the order in which the matches first show them. *)
Theorem attractions_wellformed (full_response : str) :
  let found := map strip (findall attraction_regex full_response) in
  let attractions := extract_attractions full_response in
  (length attractions <= 3)%nat
  /\ NoDup attractions
  /\ (forall a, In a attractions ->
        strip a = a /\ (3 < length a)%nat /\ In a found)
  /\ (forall l1 x l2 y l3,
        attractions = l1 ++ x :: l2 ++ y :: l3 ->
        (first_index x found < first_index y found)%nat).
Proof.
  intros found attractions.
  set (q := fun b : str => (3 <? length b)%nat).
  assert (E : attractions = firstn 3 (first_seen [] (filter q found))).
  { unfold attractions, extract_attractions, found, q.
    now rewrite dict_fromkeys_first_seen, (map_filter_comm strip
      (fun b : str => (3 <? length b)%nat)). }
  assert (Hin : forall a, In a attractions ->
                  In a found /\ q a = true).
  { intros a Ha. rewrite E in Ha.
    assert (Ha' : In a (first_seen [] (filter q found))).
    { rewrite <- (firstn_skipn 3). apply in_or_app. now left. }
    apply first_seen_In in Ha'. destruct Ha' as [_ Ha'].
    now apply filter_In in Ha'. }
  repeat split.
  - rewrite E. apply firstn_le_length.
  - rewrite E.
    apply (NoDup_app_remove_r _ (skipn 3 (first_seen [] (filter q found)))).
    rewrite firstn_skipn. apply first_seen_NoDup.
  - apply Hin in H. destruct H as [H _].
    apply in_map_iff in H. destruct H as (m & <- & _). apply strip_idem.
  - apply Hin in H. destruct H as [_ H]. now apply Nat.ltb_lt in H.
  - now apply Hin.
  - intros l1 x l2 y l3 H.
    assert (Hx : In x attractions) by (rewrite H; apply in_elt).
    assert (Hy : In y attractions).
    { rewrite H. apply in_or_app. right. right. apply in_elt. }
    apply Hin in Hx, Hy.
    apply (first_index_filter q); [tauto | tauto |].
    apply (@first_seen_order [] _ l1 x l2 y
             (l3 ++ skipn 3 (first_seen [] (filter q found)))).
    rewrite <- (firstn_skipn 3 (first_seen [] (filter q found))) at 1.
    rewrite <- E, H. rewrite <- app_assoc. simpl. now rewrite <- app_assoc.
Qed.

(* ===================================================================== *)
(** * The cost total and the currency sign *)
(* ===================================================================== *)

Section SymbolBlind.

Lemma is_currency_cases c : is_currency c = true -> c = rupee \/ c = dollar.
Proof.
  unfold is_currency, one_of, literal. simpl existsb.
  rewrite !orb_true_iff, !N.eqb_eq. intros [H|[H|H]]; auto; discriminate.
Qed.

Lemma blind_fun {X} (f : char -> X) a b :
  f rupee = f dollar -> same_but_symbol a b -> f a = f b.
Proof.
  intros Hf [->|[Ha Hb]]; auto.
  apply is_currency_cases in Ha, Hb.
  destruct Ha as [->| ->], Hb as [->| ->]; congruence.
Qed.

Lemma same_but_symbols_refl s : same_but_symbols s s.
Proof. induction s; constructor; auto. now left. Qed.

Lemma same_cons x y a b :
  same_but_symbol x y -> same_but_symbols a b ->
  same_but_symbols (x :: a) (y :: b).
Proof. now constructor. Qed.

Lemma same_but_symbols_rev a b :
  same_but_symbols a b -> same_but_symbols (rev a) (rev b).
Proof.
  induction 1; simpl; [constructor|].
  apply Forall2_app; [assumption | constructor; [assumption | constructor]].
Qed.

Lemma same_but_symbols_firstn n a b :
  same_but_symbols a b -> same_but_symbols (firstn n a) (firstn n b).
Proof.
  intros H; revert n; induction H; intros [|n]; simpl; constructor; auto.
  apply IHForall2.
Qed.

Lemma max_repeat_blind {T} (Q : T -> T -> Prop) p k1 k2 :
  p rupee = p dollar ->
  (forall a b, same_but_symbols a b -> both Q (k1 a) (k2 b)) ->
  forall s1 s2, same_but_symbols s1 s2 ->
  forall lo, both Q (max_repeat p lo s1 k1) (max_repeat p lo s2 k2).
Proof.
  intros Hp Hk s1 s2 H; induction H as [|x y s1 s2 Hxy Hs IH]; intros lo.
  - simpl. destruct lo; [apply Hk; constructor | exact I].
  - simpl. rewrite (blind_fun p Hp Hxy).
    assert (Hstay : both Q (match lo with O => k1 (x :: s1) | S _ => None end)
                           (match lo with O => k2 (y :: s2) | S _ => None end)).
    { destruct lo; [apply Hk; now constructor | exact I]. }
    destruct (p y); auto.
    specialize (IH (pred lo)).
    destruct (max_repeat p (pred lo) s1 k1), (max_repeat p (pred lo) s2 k2);
      simpl in IH; try contradiction; auto.
Qed.

Lemma rmatch_blind {T} (Q : T -> T -> Prop) r :
  symbol_blind r ->
  forall s1 s2 g1 g2 k1 k2,
    same_but_symbols s1 s2 ->
    both same_but_symbols g1 g2 ->
    (forall a b ga gb, same_but_symbols a b -> both same_but_symbols ga gb ->
                       both Q (k1 a ga) (k2 b gb)) ->
    both Q (rmatch r s1 g1 k1) (rmatch r s2 g2 k2).
Proof.
  induction r as [p|a IHa b IHb|a IHa b IHb|lo p|a IHa];
    simpl symbol_blind; intros Hr s1 s2 g1 g2 k1 k2 Hs Hg Hk; simpl rmatch.
  - destruct Hs as [|x y s1 s2 Hxy Hs]; [exact I|].
    rewrite (blind_fun p Hr Hxy). destruct (p y); [now apply Hk | exact I].
  - destruct Hr as [Ha Hb]. apply IHa; auto; intros; apply IHb; auto.
  - destruct Hr as [Ha Hb].
    pose proof (IHa Ha s1 s2 g1 g2 k1 k2 Hs Hg Hk) as H1.
    destruct (rmatch a s1 g1 k1), (rmatch a s2 g2 k2);
      simpl in H1; try contradiction; auto.
  - apply max_repeat_blind; auto.
  - apply IHa; auto. intros x y _ _ Hxy _. apply Hk; auto.
    simpl. rewrite (Forall2_length Hs), (Forall2_length Hxy).
    now apply same_but_symbols_firstn.
Qed.

Lemma search_blind r s1 s2 :
  symbol_blind r -> same_but_symbols s1 s2 ->
  both same_but_symbols (search r s1) (search r s2).
Proof.
  intros Hr Hs.
  assert (Hm : forall a b, same_but_symbols a b ->
            both (fun x y : option str * str =>
                    both same_but_symbols (fst x) (fst y))
                 (match_here r a) (match_here r b)).
  { intros a b Hab. unfold match_here. apply rmatch_blind; auto.
    exact I. }
  induction Hs as [|x y s1 s2 Hxy Hs IH].
  - destruct (search r []); simpl; auto using same_but_symbols_refl.
  - simpl search.
    pose proof (Hm (x :: s1) (y :: s2) (same_cons Hxy Hs)) as H.
    destruct (match_here r (x :: s1)) as [[g1 rest1]|],
             (match_here r (y :: s2)) as [[g2 rest2]|];
      simpl in H; try contradiction; auto.
    destruct g1, g2; simpl in *; try contradiction; auto. constructor.
Qed.

Lemma cost_regex_blind : symbol_blind cost_regex.
Proof. split; reflexivity. Qed.

Lemma int_of_digits_blind a b :
  same_but_symbols a b -> int_of_digits a = int_of_digits b.
Proof.
  intros H. unfold int_of_digits. generalize 0%Z.
  induction H as [|x y a b Hxy Hab IH]; intros acc; simpl; auto.
  rewrite (blind_fun digit_value eq_refl Hxy). apply IH.
Qed.

Lemma splitlines_end_blind c1 c2 :
  same_but_symbols c1 c2 ->
  Forall2 same_but_symbols (splitlines_from c1 []) (splitlines_from c2 []).
Proof.
  intros Hc. simpl. destruct Hc as [|x y c1 c2 Hxy Hc]; constructor.
  - apply (same_but_symbols_rev (same_cons Hxy Hc)).
  - constructor.
Qed.

Lemma splitlines_from_blind n :
  forall s1 s2 c1 c2,
    (length s1 <= n)%nat ->
    same_but_symbols s1 s2 -> same_but_symbols c1 c2 ->
    Forall2 same_but_symbols (splitlines_from c1 s1) (splitlines_from c2 s2).
Proof.
  induction n as [|n IH]; intros s1 s2 c1 c2 Hn Hs Hc;
    destruct Hs as [|x y s1 s2 Hxy Hs];
    try (now apply splitlines_end_blind); simpl in Hn; [lia|].
  simpl splitlines_from. rewrite (blind_fun is_linebreak eq_refl Hxy).
  destruct (is_linebreak y).
  - constructor; [now apply same_but_symbols_rev|].
    destruct Hs as [|d d' t1 t2 Hd Ht].
    + apply IH; [simpl; lia | constructor | constructor].
    + rewrite (blind_fun (fun c => (c =? CR)%N) eq_refl Hxy).
      rewrite (blind_fun (fun c => (c =? LF)%N) eq_refl Hd).
      simpl in Hn.
      destruct ((y =? CR)%N && (d' =? LF)%N);
        apply IH; simpl; try lia; try constructor; auto.
  - apply IH; [lia | assumption | now constructor].
Qed.

Lemma splitlines_blind t1 t2 :
  same_but_symbols t1 t2 ->
  Forall2 same_but_symbols (splitlines t1) (splitlines t2).
Proof.
  intros H. apply (@splitlines_from_blind (length t1)); auto. constructor.
Qed.

Lemma startswith_blind needle :
  plain needle = true ->
  forall s1 s2, same_but_symbols s1 s2 ->
                startswith needle s1 = startswith needle s2.
Proof.
  induction needle as [|a needle IH]; intros Hp s1 s2 Hs; simpl; auto.
  destruct Hs as [|x y s1 s2 Hxy Hs]; auto.
  unfold plain in Hp. simpl in Hp. apply andb_true_iff in Hp as [Ha Hp].
  apply negb_true_iff in Ha.
  assert (Hr : (a =? rupee)%N = (a =? dollar)%N).
  { unfold is_currency, one_of, literal in Ha. simpl existsb in Ha.
    apply orb_false_iff in Ha as [H1 H2].
    apply orb_false_iff in H2 as [H2 _]. congruence. }
  rewrite (blind_fun (fun c => (a =? c)%N) Hr Hxy).
  now rewrite (IH Hp _ _ Hs).
Qed.

Lemma contains_blind needle s1 s2 :
  plain needle = true -> same_but_symbols s1 s2 ->
  contains needle s1 = contains needle s2.
Proof.
  intros Hp Hs. induction Hs as [|x y s1 s2 Hxy Hs IH]; auto.
  simpl contains.
  rewrite (startswith_blind _ Hp (same_cons Hxy Hs)).
  now rewrite IH.
Qed.

Lemma cost_lines_blind ls1 ls2 :
  Forall2 same_but_symbols ls1 ls2 ->
  Forall2 same_but_symbols
    (filter (fun line => contains estimated_cost line) ls1)
    (filter (fun line => contains estimated_cost line) ls2).
Proof.
  induction 1 as [|a b ls1 ls2 Hab Hl IH]; simpl; [constructor|].
  rewrite (@contains_blind estimated_cost a b eq_refl Hab).
  destruct (contains estimated_cost b); [constructor|]; assumption.
Qed.

Lemma running_total_blind ls1 ls2 :
  Forall2 same_but_symbols ls1 ls2 ->
  forall acc,
    fold_left
      (fun total_cost line =>
         match search cost_regex line with
         | Some digits => (total_cost + int_of_digits digits)%Z
         | None => total_cost
         end) ls1 acc
    = fold_left
        (fun total_cost line =>
           match search cost_regex line with
           | Some digits => (total_cost + int_of_digits digits)%Z
           | None => total_cost
           end) ls2 acc.
Proof.
  induction 1 as [|a b ls1 ls2 Hab Hl IH]; intros acc; simpl; auto.
  pose proof (@search_blind cost_regex a b cost_regex_blind Hab) as H.
  destruct (search cost_regex a) as [d1|], (search cost_regex b) as [d2|];
    simpl in H; try contradiction; auto.
  rewrite (int_of_digits_blind H). apply IH.
Qed.

End SymbolBlind.

(** C4. On the two-day itinerary the total is 700, and in any text a
    rupee sign may stand for a dollar sign, or a dollar sign for a rupee
    sign, without changing the total. *)
Theorem total_cost_ignores_symbol :
  calculate_total_cost two_day_itinerary = 700%Z
  /\ (forall t1 t2 : str,
        same_but_symbols t1 t2 ->
        calculate_total_cost t1 = calculate_total_cost t2).
Proof.
  split.
  - reflexivity.
  - intros t1 t2 H. unfold calculate_total_cost.
    apply running_total_blind, cost_lines_blind, splitlines_blind, H.
Qed.

(* ===================================================================== *)
(** * The hazard report *)
(* ===================================================================== *)

(** Splits a hypothesis on the outcome of each step it runs through. *)
Ltac unfold_run H :=
  repeat match type of H with
         | bind ?m _ = _ =>
             let E := fresh "E" in
             destruct m eqn:E; simpl bind in H; try discriminate H
         | match ?m with _ => _ end = _ =>
             let E := fresh "E" in
             destruct m eqn:E; try discriminate H
         | (if ?b then _ else _) = _ =>
             let E := fresh "E" in
             destruct b eqn:E; try discriminate H
         end.

(** A returned report carries the city asked for, the weather field of
    the forecast response and the alert field of the feed. *)
Lemma hazards_report city lat lon start_date end_date r :
  hazards city lat lon start_date end_date = Return r ->
  exists weather_response,
    requests_get (weather_request lat lon start_date end_date)
    = Return weather_response
    /\ r = report city lat lon (weather_field weather_response)
                  (alerts_field city).
Proof.
  unfold hazards. intros H. unfold_run H.
  injection H as <-. eexists; split; reflexivity.
Qed.

Lemma calamity_forecast_report city start_date end_date c lat lon w a :
  calamity_forecast city start_date end_date = Return (report c lat lon w a) ->
  c = city /\ a = alerts_field city.
Proof.
  unfold calamity_forecast. intros H. unfold_run H.
  apply hazards_report in H. destruct H as (wr & _ & H).
  injection H as -> _ _ _ ->. split; reflexivity.
Qed.

Lemma earthquake_step_skips city found eq properties place_info :
  getitem_key eq (txt "properties") = Return properties ->
  getitem_key properties (txt "place") = Return (PStr place_info) ->
  contains (lower city) (lower place_info) = false ->
  earthquake_step city found eq = Return found.
Proof.
  intros H1 H2 H3. unfold earthquake_step.
  rewrite H1. simpl bind. rewrite H2. simpl. now rewrite H3.
Qed.

(** C7. When every entry of the catalogue response has a place text that
    does not hold the lower-cased city name, the list of earthquakes
    that [calamity_forecast] builds is empty. *)
Theorem unmatched_places_leave_no_earthquake
    (city : str) (usgs_data : pyval) (features : list pyval) :
  method_get usgs_data (txt "features") (PList []) = Return (PList features) ->
  Forall (fun eq =>
            exists properties place_info,
              getitem_key eq (txt "properties") = Return properties
              /\ getitem_key properties (txt "place")
                 = Return (PStr place_info)
              /\ contains (lower city) (lower place_info) = false)
         features ->
  earthquakes_of city (Return usgs_data) = Items [].
Proof.
  intros Hget Hall. unfold earthquakes_of. simpl bind. rewrite Hget.
  simpl bind.
  assert (Hloop : forall found,
            for_each features found (earthquake_step city) = Return found).
  { clear Hget.
    induction Hall as [|eq features (props & p & H1 & H2 & H3) _ IH];
      intros found; simpl; auto.
    rewrite (earthquake_step_skips city found _ H1 H2 H3). simpl. apply IH. }
  rewrite Hloop. reflexivity.
Qed.

Lemma alert_step_skips city found e title summary :
  entry_title e = Some title -> entry_summary e = Some summary ->
  contains (lower city) (lower title) = false ->
  contains (lower city) (lower summary) = false ->
  alert_step city found e = Return found.
Proof.
  intros H1 H2 H3 H4. unfold alert_step.
  rewrite H1. simpl. rewrite H3, H2. simpl. now rewrite H4.
Qed.

(** C8. When no entry of the feed names the city in its title or its
    summary, the alert field is the text "No GDACS disaster alerts
    found.", and so is the alert field of every report the function
    returns; it is not an empty list. *)
Theorem no_matching_alert_gives_marker
    (city : str) (start_date end_date : date) (entries : list entry) :
  feedparser_entries gdacs_url = Return entries ->
  Forall (fun e =>
            exists title summary,
              entry_title e = Some title
              /\ entry_summary e = Some summary
              /\ contains (lower city) (lower title) = false
              /\ contains (lower city) (lower summary) = false)
         entries ->
  alerts_field city = Marker no_gdacs_alerts
  /\ (forall c lat lon weather_data gdacs_alerts,
        calamity_forecast city start_date end_date
        = Return (report c lat lon weather_data gdacs_alerts) ->
        gdacs_alerts = Marker no_gdacs_alerts
        /\ gdacs_alerts <> Items []).
Proof.
  intros Hfeed Hall.
  assert (Hfield : alerts_field city = Marker no_gdacs_alerts).
  { unfold alerts_field. rewrite Hfeed. simpl bind.
    assert (Hloop : forall found,
              for_each entries found (alert_step city) = Return found).
    { clear Hfeed.
      induction Hall as [|e entries (t & sm & H1 & H2 & H3 & H4) _ IH];
        intros found; simpl; auto.
      rewrite (alert_step_skips city found e H1 H2 H3 H4). simpl. apply IH. }
    rewrite Hloop. reflexivity. }
  split; [exact Hfield|].
  intros c lat lon w a H. apply calamity_forecast_report in H.
  destruct H as [_ ->]. rewrite Hfield. split; [reflexivity | discriminate].
Qed.


(* ===================================================================== *)
(** * The trip summary *)
(* ===================================================================== *)

Lemma rstrip_stop a c b :
  is_space c = false -> rstrip (a ++ c :: b) = a ++ c :: rstrip b.
Proof.
  intros H. unfold rstrip.
  rewrite rev_app_distr. simpl rev. rewrite <- app_assoc. simpl app.
  rewrite drop_while_stop by exact H.
  rewrite rev_app_distr. simpl rev.
  now rewrite rev_involutive, <- app_assoc.
Qed.

Lemma startswith_app n y : startswith n (n ++ y) = true.
Proof.
  induction n as [|a n IH]; simpl; auto. now rewrite N.eqb_refl.
Qed.

Lemma contains_app n x y : contains n (x ++ n ++ y) = true.
Proof.
  induction x as [|a x IH].
  - simpl app. destruct (n ++ y) eqn:E; simpl;
      rewrite <- E, startswith_app; reflexivity.
  - simpl. rewrite IH. apply orb_true_r.
Qed.

Lemma lstrip_line_feed c s :
  is_space c = false -> lstrip (LF :: c :: s) = c :: s.
Proof. intros H. unfold lstrip. simpl. now rewrite H. Qed.

(** The summary holds the line that names the hotel. *)
Lemma summary_names_hotel city days attractions top_hotel total_cost :
  contains (txt "Recommended Hotel: " ++ format_value top_hotel)
           (summary_text city days attractions top_hotel total_cost)
  = true.
Proof.
  unfold summary_text, strip.
  change (txt "Trip Summary:") with (84%N :: txt "rip Summary:").
  cbn [app]. rewrite lstrip_line_feed by reflexivity.
  pose (P := txt "rip Summary:" ++ [LF] ++ txt "City: " ++ city ++ [LF]
             ++ txt "Duration: " ++ str_of_Z days ++ txt " days" ++ [LF]
             ++ txt "Top Attractions: " ++ join (txt ", ") attractions
             ++ [LF]).
  pose (needle := txt "Recommended Hotel: " ++ format_value top_hotel).
  pose (Q := [LF] ++ txt "Estimated Total Trip Cost: ").
  pose (B := str_of_Z total_cost ++ [LF]).
  match goal with
  | |- contains _ (rstrip ?t) = true =>
      replace t with (((84%N :: P) ++ needle ++ Q) ++ rupee :: B)
  end.
  - rewrite rstrip_stop by reflexivity.
    rewrite <- !app_assoc. apply contains_app.
  - unfold P, needle, Q, B.
    repeat (progress (rewrite <- ?app_assoc; cbn [app])). reflexivity.
Qed.



(* ===================================================================== *)
(** * The adventure activities of the pipeline *)
(* ===================================================================== *)

(** C3. In every run of [main_travel_planner], started on any world,
    [generate_itinerary] is called once when the guide backend answers
    and never when it fails, and the call has the city, the days, the
    attractions drawn from the guide and the activity list
    ["Paragliding", "Jet Skiing"]; no call of the run has another
    activity list. *)
Theorem adventure_sports_are_fixed (city : str) (days : Z) (w : World) :
  let run := main_travel_planner city days {| world := w; log := [] |} in
  let prompt_text := format_template travel_prompt [(txt "city", PStr city)] in
  filter is_itinerary_call (log (snd run))
  = match fst (model_invoke prompt_text w) with
    | Return full_response =>
        [called_generate_itinerary city days
           (extract_attractions full_response)
           [txt "Paragliding"; txt "Jet Skiing"]]
    | Raise _ => []
    end
  /\ (forall c d a adventure_sports,
        In (called_generate_itinerary c d a adventure_sports) (log (snd run)) ->
        adventure_sports = [txt "Paragliding"; txt "Jet Skiing"]).
Proof.
  intros run prompt_text.
  assert (Hcalls :
    filter is_itinerary_call (log (snd run))
    = match fst (model_invoke prompt_text w) with
      | Return full_response =>
          [called_generate_itinerary city days
             (extract_attractions full_response)
             [txt "Paragliding"; txt "Jet Skiing"]]
      | Raise _ => []
      end).
  { unfold run, main_travel_planner, travel_guide, generate_itinerary,
      hotel_recommender, bindM, record, backend, ret. simpl.
    fold prompt_text.
    destruct (model_invoke prompt_text w) as [[full_response|e] w1];
      simpl; [|reflexivity].
    match goal with
    | |- context [itinerary_model_invoke ?p w1] =>
        destruct (itinerary_model_invoke p w1) as [[itinerary|e] w2]
    end; simpl; [|reflexivity].
    match goal with
    | |- context [model_invoke ?p w2] =>
        destruct (model_invoke p w2) as [[hotel_data|e] w3]
    end; simpl; reflexivity. }
  split; [exact Hcalls|].
  intros c d a adv Hin.
  assert (Hf : In (called_generate_itinerary c d a adv)
                  (filter is_itinerary_call (log (snd run)))).
  { apply filter_In. split; [exact Hin | reflexivity]. }
  rewrite Hcalls in Hf.
  destruct (fst (model_invoke prompt_text w)); simpl in Hf;
    [|contradiction].
  destruct Hf as [Hf|[]]. now injection Hf as _ _ _ <-.
Qed.

(* ===================================================================== *)
(** * More on the cost total *)
(* ===================================================================== *)

(** One turn of the loop of [calculate_total_cost]. *)
Definition add_line_cost (total_cost : Z) (line : str) : Z :=
  match search cost_regex line with
  | Some digits => (total_cost + int_of_digits digits)%Z
  | None => total_cost
  end.

Lemma calculate_total_cost_fold t :
  calculate_total_cost t
  = fold_left add_line_cost
      (filter (fun line => contains estimated_cost line) (splitlines t)) 0%Z.
Proof. reflexivity. Qed.

Lemma int_of_digits_nonneg s : (0 <= int_of_digits s)%Z.
Proof.
  unfold int_of_digits.
  assert (H : forall acc, (0 <= acc)%Z ->
            (0 <= fold_left
                    (fun acc c =>
                       match digit_value c with
                       | Some d => 10 * acc + Z.of_N d
                       | None => 10 * acc
                       end) s acc)%Z).
  { induction s as [|c s IH]; intros acc Hacc; cbn [fold_left]; auto.
    apply IH. destruct (digit_value c); lia. }
  apply H. lia.
Qed.

Lemma add_line_cost_shift acc line :
  add_line_cost acc line = (acc + add_line_cost 0 line)%Z.
Proof. unfold add_line_cost. destruct (search cost_regex line); lia. Qed.

Lemma running_total_shift ls acc :
  fold_left add_line_cost ls acc = (acc + fold_left add_line_cost ls 0)%Z.
Proof.
  revert acc; induction ls as [|l ls IH]; intros acc; simpl; [lia|].
  rewrite IH, (IH (add_line_cost 0 l)), (add_line_cost_shift acc l). lia.
Qed.

Lemma running_total_nonneg ls acc :
  (0 <= acc)%Z -> (0 <= fold_left add_line_cost ls acc)%Z.
Proof.
  revert acc; induction ls as [|l ls IH]; intros acc H; simpl; auto.
  apply IH. unfold add_line_cost. destruct (search cost_regex l); auto.
  pose proof (int_of_digits_nonneg s). lia.
Qed.

(** X1. The total is never negative. *)
Theorem total_cost_nonnegative (itinerary_text : str) :
  (0 <= calculate_total_cost itinerary_text)%Z.
Proof.
  rewrite calculate_total_cost_fold. apply running_total_nonneg. lia.
Qed.

(** Every line has only characters of the text. *)
Lemma splitlines_from_Forall (P : char -> Prop) n :
  forall s cur,
    (length s <= n)%nat -> Forall P cur -> Forall P s ->
    Forall (Forall P) (splitlines_from cur s).
Proof.
  induction n as [|n IH]; intros s cur Hn Hc Hs.
  - destruct s; [|simpl in Hn; lia]. simpl.
    destruct cur; constructor; auto. now apply Forall_rev.
  - destruct s as [|c s]; simpl.
    + destruct cur; constructor; auto. now apply Forall_rev.
    + simpl in Hn. inversion Hs as [|? ? Hc0 Hs0]; subst.
      destruct (is_linebreak c).
      * constructor; [now apply Forall_rev|].
        destruct s as [|d s'].
        -- apply IH; simpl; auto; lia.
        -- inversion Hs0; subst.
           destruct ((c =? CR)%N && (d =? LF)%N);
             apply IH; simpl in *; auto; lia.
      * apply IH; auto; lia.
Qed.

Lemma splitlines_Forall (P : char -> Prop) t :
  Forall P t -> Forall (Forall P) (splitlines t).
Proof.
  intros H. apply (@splitlines_from_Forall P (length t)); auto.
Qed.

Lemma plain_Forall s :
  plain s = true <-> Forall (fun c => is_currency c = false) s.
Proof.
  unfold plain. rewrite forallb_forall, Forall_forall.
  split; intros H c Hc; specialize (H c Hc); now apply negb_true_iff.
Qed.

Lemma search_cost_plain line :
  Forall (fun c => is_currency c = false) line ->
  search cost_regex line = None.
Proof.
  induction 1 as [|c line Hc Hl IH]; [reflexivity|].
  simpl search. unfold match_here, cost_regex. cbn [rmatch].
  rewrite Hc. exact IH.
Qed.

(** X2. A text that holds neither a rupee sign nor a dollar sign totals
    0, whatever amounts its cost lines show. *)
Theorem total_cost_without_sign (itinerary_text : str) :
  plain itinerary_text = true ->
  calculate_total_cost itinerary_text = 0%Z.
Proof.
  intros H. apply plain_Forall, splitlines_Forall in H.
  rewrite calculate_total_cost_fold.
  induction H as [|line ls Hl _ IH]; [reflexivity|].
  simpl filter. destruct (contains estimated_cost line); auto.
  simpl. unfold add_line_cost at 2. now rewrite (search_cost_plain Hl).
Qed.

Lemma startswith_split n h : startswith n h = true -> exists b, h = n ++ b.
Proof.
  revert h; induction n as [|a n IH]; intros h H.
  - now exists h.
  - destruct h as [|c h]; simpl in H; [discriminate|].
    apply andb_true_iff in H as [Hc H]. apply N.eqb_eq in Hc. subst c.
    destruct (IH _ H) as [b ->]. now exists b.
Qed.

Lemma contains_split n h :
  contains n h = true -> exists a b, h = a ++ n ++ b.
Proof.
  induction h as [|c h IH]; simpl; rewrite orb_true_iff; intros [H|H].
  - apply startswith_split in H. destruct H as [b ->]. now exists [], b.
  - discriminate.
  - apply startswith_split in H. destruct H as [b ->]. now exists [], b.
  - destruct (IH H) as (a & b & ->). now exists (c :: a), b.
Qed.

(** Every line stands somewhere in the text. *)
Lemma splitlines_from_substring n :
  forall s cur line,
    (length s <= n)%nat -> In line (splitlines_from cur s) ->
    exists a b, rev cur ++ s = a ++ line ++ b.
Proof.
  induction n as [|n IH]; intros s cur line Hn Hin.
  - destruct s; [|simpl in Hn; lia]. simpl in Hin.
    destruct cur; [contradiction|]. destruct Hin as [<-|[]].
    exists [], []. now rewrite !app_nil_r.
  - destruct s as [|c s]; simpl in Hin.
    + destruct cur; [contradiction|]. destruct Hin as [<-|[]].
      exists [], []. now rewrite !app_nil_r.
    + simpl in Hn. destruct (is_linebreak c).
      * destruct Hin as [<-|Hin]; [now exists [], (c :: s)|].
        destruct s as [|d s'].
        -- simpl in Hin. contradiction.
        -- destruct ((c =? CR)%N && (d =? LF)%N).
           ++ apply IH in Hin; [|simpl in *; lia].
              destruct Hin as (a & b & E). simpl in E. rewrite E.
              exists (rev cur ++ c :: d :: a), b.
              now rewrite <- !app_assoc.
           ++ apply IH in Hin; [|simpl in *; lia].
              destruct Hin as (a & b & E). simpl in E. rewrite E.
              exists (rev cur ++ c :: a), b.
              now rewrite <- !app_assoc.
      * apply IH in Hin; [|lia].
        destruct Hin as (a & b & E). exists a, b. rewrite <- E.
        simpl. now rewrite <- app_assoc.
Qed.

Lemma line_in_text needle t line :
  In line (splitlines t) -> contains needle line = true ->
  contains needle t = true.
Proof.
  intros Hin Hc.
  apply (@splitlines_from_substring (length t)) in Hin; auto.
  destruct Hin as (a & b & E). simpl in E.
  apply contains_split in Hc. destruct Hc as (a' & b' & ->).
  rewrite E. replace (a ++ (a' ++ needle ++ b') ++ b)
    with ((a ++ a') ++ needle ++ (b' ++ b))
    by now rewrite <- !app_assoc.
  apply contains_app.
Qed.

(** X3. A text in which the words "Estimated cost" do not occur totals
    0, whatever amounts it shows. *)
Theorem total_cost_without_marker (itinerary_text : str) :
  contains estimated_cost itinerary_text = false ->
  calculate_total_cost itinerary_text = 0%Z.
Proof.
  intros H. rewrite calculate_total_cost_fold.
  assert (Hnone : forall ls,
            (forall line, In line ls -> In line (splitlines itinerary_text)) ->
            filter (fun line => contains estimated_cost line) ls = []).
  { induction ls as [|l ls IH]; intros Hsub; [reflexivity|].
    simpl. destruct (contains estimated_cost l) eqn:E.
    - rewrite (@line_in_text estimated_cost itinerary_text l
                 (Hsub l (or_introl eq_refl)) E) in H.
      discriminate.
    - apply IH. intros line Hl. apply Hsub. now right. }
  rewrite (Hnone _ (fun _ Hl => Hl)). reflexivity.
Qed.

Lemma splitlines_from_line_feed cur t :
  splitlines_from cur (LF :: t) = rev cur :: splitlines t.
Proof. simpl. destruct t; reflexivity. Qed.

(** The lines of two texts joined by a line feed: the lines of the first,
    an empty line when the first text is empty or ends a line, and the
    lines of the second. *)
Lemma splitlines_from_join n :
  forall t1 cur t2,
    (length t1 <= n)%nat ->
    exists extra,
      (extra = [] \/ extra = [[]])
      /\ splitlines_from cur (t1 ++ LF :: t2)
         = splitlines_from cur t1 ++ extra ++ splitlines t2.
Proof.
  assert (Hbase : forall cur t2,
            exists extra,
              (extra = [] \/ extra = [[]])
              /\ splitlines_from cur ([] ++ LF :: t2)
                 = splitlines_from cur [] ++ extra ++ splitlines t2).
  { intros cur t2. simpl app at 1. rewrite splitlines_from_line_feed.
    destruct cur as [|x cur].
    - exists [[]]. split; [now right | reflexivity].
    - exists []. split; [now left | reflexivity]. }
  induction n as [|n IH]; intros t1 cur t2 Hn.
  - destruct t1; [apply Hbase | simpl in Hn; lia].
  - destruct t1 as [|c t1]; [apply Hbase|]. simpl in Hn.
    simpl app. simpl splitlines_from.
    destruct (is_linebreak c) eqn:Eb.
    + destruct t1 as [|d t1'].
      * cbn [app]. change (LF =? LF)%N with true. rewrite andb_true_r.
        destruct (c =? CR)%N eqn:Ec.
        -- exists []. split; [now left | reflexivity].
        -- exists [[]]. split; [now right|].
           rewrite splitlines_from_line_feed. reflexivity.
      * cbn [app]. destruct ((c =? CR)%N && (d =? LF)%N) eqn:Ecd.
        -- destruct (IH t1' [] t2) as (extra & He & E);
             [simpl in Hn; lia|].
           exists extra. split; [exact He|]. now rewrite E.
        -- destruct (IH (d :: t1') [] t2) as (extra & He & E);
             [simpl in *; lia|].
           exists extra. split; [exact He|].
           change (d :: t1' ++ LF :: t2) with ((d :: t1') ++ LF :: t2).
           now rewrite E.
    + destruct (IH t1 (c :: cur) t2) as (extra & He & E); [lia|].
      exists extra. split; [exact He | exact E].
Qed.

(** X4. The total of two texts joined by a line feed is the sum of
    their totals. *)
Theorem total_cost_additive (t1 t2 : str) :
  calculate_total_cost (t1 ++ LF :: t2)
  = (calculate_total_cost t1 + calculate_total_cost t2)%Z.
Proof.
  rewrite !calculate_total_cost_fold. unfold splitlines at 1.
  destruct (@splitlines_from_join (length t1) t1 [] t2 (le_n _))
    as (extra & He & ->).
  fold (splitlines t1). rewrite !filter_app, !fold_left_app.
  destruct He as [->| ->];
    change (filter (fun line : str => contains estimated_cost line) _)
      with (@nil str) at 2;
    cbn [fold_left]; apply running_total_shift.
Qed.

(* ===================================================================== *)
(** * More on the attraction list *)
(* ===================================================================== *)

(** What a greedy repetition hands on: the text after a run of
    characters that pass the test, at least [lo] of them. *)
Lemma max_repeat_run {T} p lo s (k : str -> option T) r :
  max_repeat p lo s k = Some r ->
  exists taken rest,
    s = taken ++ rest
    /\ Forall (fun c => p c = true) taken
    /\ (lo <= length taken)%nat
    /\ k rest = Some r.
Proof.
  revert lo; induction s as [|c s IH]; intros lo H; simpl in H.
  - destruct lo; [|discriminate]. exists [], []. auto.
  - assert (Hstay : match lo with O => k (c :: s) | S _ => None end = Some r ->
                    exists taken rest,
                      c :: s = taken ++ rest
                      /\ Forall (fun c => p c = true) taken
                      /\ (lo <= length taken)%nat
                      /\ k rest = Some r).
    { destruct lo; [|discriminate]. intros Hk. exists [], (c :: s). auto. }
    destruct (p c) eqn:Ep; auto.
    destruct (max_repeat p (pred lo) s k) as [r'|] eqn:Em; auto.
    injection H as ->. apply IH in Em.
    destruct Em as (taken & rest & -> & Hall & Hlen & Hk).
    exists (c :: taken), rest. repeat split; auto.
    simpl. lia.
Qed.

(** A match runs the rest of the pattern somewhere. *)
Lemma rmatch_continues {T} r :
  forall s g (k : str -> option str -> option T) x,
    rmatch r s g k = Some x -> exists s1 g1, k s1 g1 = Some x.
Proof.
  induction r as [p|a IHa b IHb|a IHa b IHb|lo p|a IHa];
    intros s g k x H; simpl in H.
  - destruct s as [|c s]; [discriminate|].
    destruct (p c); [|discriminate]. eauto.
  - apply IHa in H. destruct H as (s1 & g1 & H). now apply IHb in H.
  - destruct (rmatch a s g k) eqn:E.
    + injection H as ->. now apply IHa in E.
    + now apply IHb in H.
  - apply max_repeat_run in H. destruct H as (_ & rest & _ & _ & _ & H).
    eauto.
  - apply IHa in H. destruct H as (s1 & _ & H). eauto.
Qed.

(** The texts group 1 of the attraction pattern can hold: a capital
    letter, then one or more characters of the class. *)
Definition attraction_shaped (a : str) : Prop :=
  exists c t,
    a = c :: t
    /\ range 65%N 90%N c = true
    /\ t <> []
    /\ Forall (fun ch => attraction_class ch = true) t.

Lemma firstn_taken (c : char) taken rest :
  firstn (length (c :: taken ++ rest) - length rest) (c :: taken ++ rest)
  = c :: taken.
Proof.
  replace (length (c :: taken ++ rest) - length rest)%nat
    with (S (length taken)) by (cbn [length]; rewrite length_app; lia).
  simpl. f_equal. rewrite firstn_app, Nat.sub_diag, firstn_all.
  simpl. apply app_nil_r.
Qed.

Lemma attraction_match_shaped s g rest :
  match_here attraction_regex s = Some (g, rest) ->
  exists a, g = Some a /\ attraction_shaped a.
Proof.
  unfold match_here, attraction_regex.
  match goal with
  | |- rmatch (Seq ?a ?b) s None ?k = _ -> _ =>
      change (rmatch (Seq a b) s None k)
        with (rmatch a s None (fun s1 g1 => rmatch b s1 g1 k))
  end.
  intros H. apply rmatch_continues in H. destruct H as (s1 & g1 & H).
  cbn [rmatch] in H.
  destruct s1 as [|c1 s1]; [discriminate|].
  destruct (literal backslash c1); [|discriminate].
  apply max_repeat_run in H. destruct H as (_ & s2 & _ & _ & _ & H).
  destruct s2 as [|c s2]; [discriminate|].
  destruct (range 65%N 90%N c) eqn:Ec; [|discriminate].
  apply max_repeat_run in H.
  destruct H as (taken & rest' & -> & Hall & Hlen & H).
  injection H as <- _.
  exists (c :: taken). split; [f_equal; exact (firstn_taken c taken rest')|].
  exists c, taken. repeat split; auto.
  intros ->. simpl in Hlen. lia.
Qed.

Lemma findall_attraction_shaped n s :
  Forall attraction_shaped (findall_from n attraction_regex s).
Proof.
  revert s; induction n as [|n IH]; intros s; simpl; [constructor|].
  destruct (match_here attraction_regex s) as [[g rest]|] eqn:E.
  - apply attraction_match_shaped in E. destruct E as (a & -> & Ha).
    constructor; [exact Ha|].
    destruct (length rest <? length s)%nat; auto.
    destruct s; auto.
  - destruct s; auto.
Qed.

Lemma is_space_bounds c :
  is_space c = true ->
  ((9 <= c <= 32) \/ c = 133 \/ (160 <= c))%N.
Proof.
  unfold is_space.
  rewrite !orb_true_iff, !andb_true_iff, !N.leb_le, !N.eqb_eq. lia.
Qed.

Lemma attraction_class_cases ch :
  attraction_class ch = true ->
  (ch = 92 \/ ch = 119 \/ ch = 115 \/ ch = 44 \/ ch = 39 \/ ch = 38
   \/ ch = 45)%N.
Proof.
  unfold attraction_class, one_of, literal, backslash. simpl existsb.
  rewrite !orb_true_iff, !N.eqb_eq. intuition discriminate.
Qed.

Lemma strip_solid s :
  Forall (fun ch => is_space ch = false) s -> strip s = s.
Proof.
  intros H.
  assert (Hd : forall l, Forall (fun ch => is_space ch = false) l ->
                         drop_while is_space l = l).
  { intros l Hl. destruct Hl as [|x l Hx _]; simpl; auto. now rewrite Hx. }
  unfold strip, lstrip, rstrip. rewrite (Hd s H).
  rewrite (Hd (rev s)) by now apply Forall_rev.
  apply rev_involutive.
Qed.

Lemma attraction_shaped_solid a :
  attraction_shaped a -> Forall (fun ch => is_space ch = false) a.
Proof.
  intros (c & t & -> & Hc & _ & Ht). constructor.
  - unfold range in Hc. apply andb_true_iff in Hc as [H1 H2].
    apply N.leb_le in H1, H2.
    destruct (is_space c) eqn:E; auto.
    apply is_space_bounds in E. lia.
  - eapply Forall_impl; [|exact Ht]. intros ch Hch.
    apply attraction_class_cases in Hch.
    destruct (is_space ch) eqn:E; auto.
    apply is_space_bounds in E. lia.
Qed.

Lemma first_seen_sub seen l x : In x (first_seen seen l) -> In x l.
Proof.
  revert seen; induction l as [|h l IH]; intros seen; simpl; auto.
  destruct (mem h seen).
  - intros H. right. exact (IH _ H).
  - intros [H|H]; [now left | right; exact (IH _ H)].
Qed.

Lemma attractions_wellformed_In full_response a :
  In a (extract_attractions full_response) ->
  exists m, In m (findall attraction_regex full_response) /\ a = strip m.
Proof.
  unfold extract_attractions. rewrite dict_fromkeys_first_seen. intros H.
  assert (H' : In a (first_seen []
                 (map strip
                    (filter (fun a => (3 <? length (strip a))%nat)
                       (findall attraction_regex full_response))))).
  { rewrite <- (firstn_skipn 3). apply in_or_app. now left. }
  apply first_seen_sub in H'.
  apply in_map_iff in H'. destruct H' as (m & <- & Hm).
  apply filter_In in Hm. destruct Hm as [Hm _].
  exists m. split; [exact Hm | reflexivity].
Qed.

(** X5. Whatever the guide text, every attraction is an ASCII capital
    letter followed only by backslashes, letters w and s, commas,
    quotes, ampersands and hyphens; so no attraction holds a blank. *)
Theorem attractions_use_pattern_characters (full_response : str) :
  Forall (fun a => attraction_shaped a /\ ~ In 32%N a)
         (extract_attractions full_response).
Proof.
  apply Forall_forall. intros a Ha.
  pose proof (attractions_wellformed_In full_response a Ha) as (m & Hm & ->).
  pose proof (findall_attraction_shaped (S (length full_response))
                full_response) as Hall.
  rewrite Forall_forall in Hall. specialize (Hall m Hm).
  rewrite (strip_solid (attraction_shaped_solid Hall)).
  split; [exact Hall|].
  intros Hblank. apply attraction_shaped_solid in Hall.
  rewrite Forall_forall in Hall. now specialize (Hall _ Hblank).
Qed.

(** X6. A guide text without a backslash yields no attraction. *)
Theorem attractions_empty_without_backslash (full_response : str) :
  ~ In backslash full_response ->
  extract_attractions full_response = [].
Proof.
  intros H. apply extract_attractions_needs_backslash.
  unfold no_backslash. apply forallb_forall. intros c Hc.
  apply negb_true_iff, N.eqb_neq. intros ->. now apply H.
Qed.

(* ===================================================================== *)
(** * More on the trip summary *)
(* ===================================================================== *)

Lemma digits_solid d :
  Forall (fun ch => is_space ch = false) (txt (NilEmpty.string_of_uint d)).
Proof.
  induction d; simpl; constructor; auto.
Qed.

(** The decimal text of an integer holds no blank. *)
Lemma str_of_Z_solid n : Forall (fun ch => is_space ch = false) (str_of_Z n).
Proof.
  unfold str_of_Z. destruct (Z.to_int n) as [d|d];
    unfold NilZero.string_of_int, NilZero.string_of_uint.
  - destruct d; try apply (digits_solid (_ _)); repeat constructor.
  - change (txt (String "-" ?s)) with (45%N :: txt s).
    constructor; [reflexivity|].
    destruct d; try apply (digits_solid (_ _)); repeat constructor.
Qed.

Lemma drop_while_solid l :
  Forall (fun ch => is_space ch = false) l -> drop_while is_space l = l.
Proof. intros [|x l' Hx _]; simpl; auto. now rewrite Hx. Qed.

Lemma rstrip_line_feed s :
  Forall (fun ch => is_space ch = false) s -> rstrip (s ++ [LF]) = s.
Proof.
  intros H. unfold rstrip. rewrite rev_app_distr.
  change (rev [LF] ++ rev s) with (LF :: rev s).
  change (drop_while is_space (LF :: rev s))
    with (drop_while is_space (rev s)).
  rewrite drop_while_solid by now apply Forall_rev.
  apply rev_involutive.
Qed.



(* ===================================================================== *)
(** * More on the hazard report *)
(* ===================================================================== *)

(** A feature that the earthquake loop keeps, and the record it makes of
    it. *)
Definition describes (city : str) (eq : pyval) (q : earthquake) : Prop :=
  exists properties place_info mag millis when link,
    getitem_key eq (txt "properties") = Return properties
    /\ getitem_key properties (txt "place") = Return (PStr place_info)
    /\ contains (lower city) (lower place_info) = true
    /\ getitem_key properties (txt "mag") = Return mag
    /\ getitem_key properties (txt "time") = Return millis
    /\ utc_time_text millis = Return when
    /\ getitem_key properties (txt "url") = Return link
    /\ q = {| place := PStr place_info; magnitude := mag;
              time := when; url := link |}.

(** An entry that the alert loop keeps, and the record it makes of it. *)
Definition announces (city : str) (e : entry) (a : alert) : Prop :=
  exists title summary target,
    entry_title e = Some title
    /\ entry_summary e = Some summary
    /\ entry_link e = Some target
    /\ (contains (lower city) (lower title) = true
        \/ contains (lower city) (lower summary) = true)
    /\ a = {| event := title; details := summary; link := target |}.

(** What one returning turn of the earthquake loop does. *)
Lemma earthquake_step_cases city found eq found' :
  earthquake_step city found eq = Return found' ->
  (found' = found /\ forall q, ~ describes city eq q)
  \/ (exists q, found' = found ++ [q] /\ describes city eq q).
Proof.
  unfold earthquake_step. intros H.
  destruct (getitem_key eq (txt "properties")) as [props|] eqn:E1;
    simpl bind in H; [|discriminate].
  destruct (getitem_key props (txt "place")) as [pl|] eqn:E2;
    simpl bind in H; [|discriminate].
  destruct pl as [| | | |p| |]; simpl in H; try discriminate.
  destruct (contains (lower city) (lower p)) eqn:E3.
  - destruct (getitem_key props (txt "mag")) as [m|] eqn:E4;
      simpl bind in H; [|discriminate].
    destruct (getitem_key props (txt "time")) as [t|] eqn:E5;
      simpl bind in H; [|discriminate].
    destruct (utc_time_text t) as [w|] eqn:E6; simpl bind in H;
      [|discriminate].
    destruct (getitem_key props (txt "url")) as [u|] eqn:E7;
      simpl bind in H; [|discriminate].
    injection H as <-. right. eexists. split; [reflexivity|].
    exists props, p, m, t, w, u. repeat split; assumption.
  - injection H as <-. left. split; [reflexivity|].
    intros q (props' & p' & m & t & w & u & H1 & H2 & H3 & _).
    rewrite E1 in H1. injection H1 as <-.
    rewrite E2 in H2. injection H2 as <-. congruence.
Qed.

Lemma earthquake_loop_exact city features :
  forall found found',
    for_each features found (earthquake_step city) = Return found' ->
    forall q,
      In q found' <->
      In q found \/ exists eq, In eq features /\ describes city eq q.
Proof.
  induction features as [|eq features IH]; intros found found' H q;
    simpl in H.
  - injection H as <-. split; [auto|]. intros [H|(eq & [] & _)]; auto.
  - destruct (earthquake_step city found eq) as [mid|] eqn:E;
      simpl bind in H; [|discriminate].
    rewrite (@IH _ _ H q).
    apply earthquake_step_cases in E.
    destruct E as [[-> Hno]|(q0 & -> & Hq0)].
    + split.
      * intros [Hq|(eq' & Hin & Hd)]; [now left|].
        right. exists eq'. split; [now right | exact Hd].
      * intros [Hq|(eq' & [<-|Hin] & Hd)]; [now left | |].
        -- now apply Hno in Hd.
        -- right. now exists eq'.
    + rewrite in_app_iff. split.
      * intros [[Hq|[<-|[]]]|(eq' & Hin & Hd)].
        -- now left.
        -- right. exists eq. split; [now left | exact Hq0].
        -- right. exists eq'. split; [now right | exact Hd].
      * intros [Hq|(eq' & [<-|Hin] & Hd)].
        -- now left; left.
        -- left. right. left.
           destruct Hq0 as (p1 & l1 & m1 & t1 & w1 & u1 & A1 & A2 & _ & A4
                            & A5 & A6 & A7 & ->).
           destruct Hd as (p2 & l2 & m2 & t2 & w2 & u2 & B1 & B2 & _ & B4
                           & B5 & B6 & B7 & ->).
           rewrite A1 in B1. injection B1 as <-.
           rewrite A2 in B2. injection B2 as <-.
           rewrite A4 in B4. injection B4 as <-.
           rewrite A5 in B5. injection B5 as <-.
           rewrite A6 in B6. injection B6 as <-.
           rewrite A7 in B7. injection B7 as <-. reflexivity.
        -- right. now exists eq'.
Qed.


Lemma for_each_raises {A B} (step : B -> A -> res B) bad xs :
  (forall acc, exists e, step acc bad = Raise e) ->
  In bad xs ->
  forall acc, exists e, for_each xs acc step = Raise e.
Proof.
  intros Hbad. induction xs as [|x xs IH]; intros Hin acc; [contradiction|].
  simpl. destruct (step acc x) as [acc'|e] eqn:E; simpl.
  - destruct Hin as [->|Hin].
    + destruct (Hbad acc) as [e He]. congruence.
    + now apply IH.
  - now exists e.
Qed.

(** X10. One feature without a place text (a null place, a missing key)
    makes the whole earthquake list the text "USGS data unavailable or
    failed to decode", whatever the other features hold. *)
Theorem placeless_feature_spoils_the_list
    (city : str) (usgs_data : pyval) (features : list pyval) (bad : pyval) :
  method_get usgs_data (txt "features") (PList []) = Return (PList features) ->
  In bad features ->
  (forall properties place_info,
      getitem_key bad (txt "properties") = Return properties ->
      getitem_key properties (txt "place") <> Return (PStr place_info)) ->
  earthquakes_of city (Return usgs_data) = Marker usgs_failed.
Proof.
  intros Hget Hin Hbad. unfold earthquakes_of. simpl bind.
  rewrite Hget. simpl bind.
  destruct (@for_each_raises _ _ (earthquake_step city) bad features)
    with (acc := @nil earthquake) as [e He]; auto.
  - intros acc. unfold earthquake_step.
    destruct (getitem_key bad (txt "properties")) as [props|e] eqn:E1;
      simpl bind; [|now exists e].
    destruct (getitem_key props (txt "place")) as [pl|e] eqn:E2;
      simpl bind; [|now exists e].
    destruct pl as [| | | |p| |]; simpl; eauto.
    exfalso. now apply (Hbad props p).
  - now rewrite He.
Qed.

(** What one returning turn of the alert loop does. *)
Lemma alert_step_cases city found e found' :
  alert_step city found e = Return found' ->
  (found' = found /\ forall a, ~ announces city e a)
  \/ (exists a, found' = found ++ [a] /\ announces city e a).
Proof.
  unfold alert_step. intros H.
  destruct (entry_title e) as [t|] eqn:E1; simpl in H; [|discriminate].
  destruct (contains (lower city) (lower t)) eqn:Et; simpl in H.
  - destruct (entry_summary e) as [s|] eqn:E2; simpl in H; [|discriminate].
    destruct (entry_link e) as [k|] eqn:E3; simpl in H; [|discriminate].
    injection H as <-. right. eexists. split; [reflexivity|].
    exists t, s, k. repeat split; auto.
  - destruct (entry_summary e) as [s|] eqn:E2; simpl in H; [|discriminate].
    destruct (contains (lower city) (lower s)) eqn:Es; simpl in H.
    + destruct (entry_link e) as [k|] eqn:E3; simpl in H; [|discriminate].
      injection H as <-. right. eexists. split; [reflexivity|].
      exists t, s, k. repeat split; auto.
    + injection H as <-. left. split; [reflexivity|].
      intros a (t' & s' & k' & H1 & H2 & _ & Hc & _).
      rewrite E1 in H1. injection H1 as <-.
      rewrite E2 in H2. injection H2 as <-.
      destruct Hc; congruence.
Qed.

Lemma alert_loop_exact city entries :
  forall found found',
    for_each entries found (alert_step city) = Return found' ->
    forall a,
      In a found' <->
      In a found \/ exists e, In e entries /\ announces city e a.
Proof.
  induction entries as [|e entries IH]; intros found found' H a;
    simpl in H.
  - injection H as <-. split; [auto|]. intros [H|(e & [] & _)]; auto.
  - destruct (alert_step city found e) as [mid|] eqn:E;
      simpl bind in H; [|discriminate].
    rewrite (@IH _ _ H a).
    apply alert_step_cases in E.
    destruct E as [[-> Hno]|(a0 & -> & Ha0)].
    + split.
      * intros [Ha|(e' & Hin & Hd)]; [now left|].
        right. exists e'. split; [now right | exact Hd].
      * intros [Ha|(e' & [<-|Hin] & Hd)]; [now left | |].
        -- now apply Hno in Hd.
        -- right. now exists e'.
    + rewrite in_app_iff. split.
      * intros [[Ha|[<-|[]]]|(e' & Hin & Hd)].
        -- now left.
        -- right. exists e. split; [now left | exact Ha0].
        -- right. exists e'. split; [now right | exact Hd].
      * intros [Ha|(e' & [<-|Hin] & Hd)].
        -- now left; left.
        -- left. right. left.
           destruct Ha0 as (t1 & s1 & k1 & A1 & A2 & A3 & _ & ->).
           destruct Hd as (t2 & s2 & k2 & B1 & B2 & B3 & _ & ->).
           congruence.
        -- right. now exists e'.
Qed.


(** X12. The function returns an error value only for the two
    geocoding outcomes: a body that does not decode, with the
    parse-failure text, or a decoded body that is empty, with the
    not-found text. *)
Theorem error_values_come_from_geocoding
    (city : str) (start_date end_date : date) (message : str) :
  calamity_forecast city start_date end_date
  = Return (error_dict message) ->
  (exists e,
      requests_get (geo_request city) = Return (Raise e)
      /\ message = geo_parse_error)
  \/ (exists geo_data,
        requests_get (geo_request city) = Return (Return geo_data)
        /\ truthy geo_data = false
        /\ message = location_not_found city).
Proof.
  unfold calamity_forecast. intros H.
  destruct (requests_get (geo_request city)) as [[geo_data|e1]|e2];
    simpl in H; try discriminate.
  - destruct (truthy geo_data) eqn:Et; simpl in H.
    + unfold_run H. apply hazards_report in H.
      destruct H as (wr & _ & H). discriminate.
    + injection H as <-. right. now exists geo_data.
  - injection H as <-. left. now exists e1.
Qed.

(** X13. After the geocoding, an exception leaves the function only
    when the forecast service or the catalogue cannot be reached: what
    the bodies hold and what the feed does never raises. *)
Theorem hazards_raise_only_when_unreachable
    (city : str) (lat lon : float) (start_date end_date : date) (e : exn) :
  hazards city lat lon start_date end_date = Raise e
  <-> requests_get (weather_request lat lon start_date end_date) = Raise e
      \/ ((exists weather_response,
              requests_get (weather_request lat lon start_date end_date)
              = Return weather_response)
          /\ requests_get (usgs_request start_date end_date) = Raise e).
Proof.
  unfold hazards.
  destruct (requests_get (weather_request lat lon start_date end_date))
    as [wr|e1]; simpl bind.
  - destruct (requests_get (usgs_request start_date end_date)) as [ur|e2];
      simpl bind.
    + split; [discriminate|]. intros [H|[_ H]]; discriminate.
    + split.
      * intros H. injection H as ->. right. split; [now exists wr|].
        reflexivity.
      * intros [H|[_ H]]; [discriminate|]. now injection H as ->.
  - split.
    + intros H. injection H as ->. now left.
    + intros [H|[[wr H] _]]; [|discriminate]. now injection H as ->.
Qed.

(* ===================================================================== *)
(** * More on the pipeline *)
(* ===================================================================== *)

(** The three prompts a run sends, the second from the answer to the
    first. *)
Definition guide_prompt (city : str) : str :=
  format_template travel_prompt [(txt "city", PStr city)].

Definition plan_prompt (city : str) (days : Z) (full_response : str) : str :=
  format_template itinerary_prompt
    [(txt "city", PStr city); (txt "days", PInt days);
     (txt "attractions",
      PStr (join (txt ", ") (extract_attractions full_response)));
     (txt "adventure_sports", PStr (txt "Paragliding, Jet Skiing"))].

Definition hotel_prompt (city : str) : str :=
  format_template prompt [(txt "city", PStr city)].

(** One backend call: the log is left as it was. *)
Lemma backend_run invoke p w l answer w1 :
  invoke p w = (answer, w1) ->
  backend invoke p {| world := w; log := l |}
  = (answer, {| world := w1; log := l |}).
Proof. intros H. unfold backend. cbn [world log]. now rewrite H. Qed.

Lemma travel_guide_run city w l answer w1 :
  model_invoke (guide_prompt city) w = (answer, w1) ->
  travel_guide city {| world := w; log := l |}
  = (match answer with
     | Return full_response =>
         Return {| guide_city := city;
                   guide_attractions := extract_attractions full_response;
                   full_guide := full_response |}
     | Raise e => Raise e
     end,
     {| world := w1; log := l ++ [invoked_model (guide_prompt city)] |}).
Proof.
  intros H. unfold travel_guide, bindM, record, ret.
  fold (guide_prompt city). cbn [world log].
  rewrite (@backend_run _ _ _ _ _ _ H). now destruct answer.
Qed.

Lemma hotel_recommender_run city w l answer w1 :
  model_invoke (hotel_prompt city) w = (answer, w1) ->
  hotel_recommender city {| world := w; log := l |}
  = (answer,
     {| world := w1; log := l ++ [invoked_model (hotel_prompt city)] |}).
Proof.
  intros H. unfold hotel_recommender, bindM, record.
  fold (hotel_prompt city). cbn [world log].
  now rewrite (@backend_run _ _ _ _ _ _ H).
Qed.

Lemma generate_itinerary_run city days full_response w l answer w1 :
  itinerary_model_invoke (plan_prompt city days full_response) w
  = (answer, w1) ->
  generate_itinerary city days (extract_attractions full_response)
    [txt "Paragliding"; txt "Jet Skiing"] {| world := w; log := l |}
  = (answer,
     {| world := w1;
        log := (l ++ [called_generate_itinerary city days
                        (extract_attractions full_response)
                        [txt "Paragliding"; txt "Jet Skiing"]])
               ++ [invoked_itinerary_model
                     (plan_prompt city days full_response)] |}).
Proof.
  intros H. unfold generate_itinerary, bindM, record.
  change (format_template itinerary_prompt _)
    with (plan_prompt city days full_response).
  cbn [world log].
  now rewrite (@backend_run _ _ _ _ _ _ H).
Qed.


(** X15. A backend that fails ends the run with its exception, and the
    backends after it are not asked: after a failed guide nothing else
    is called, after a failed itinerary the hotels are not asked for. *)
Theorem planner_stops_at_first_failure (city : str) (days : Z) (w : World) :
  (forall e w1,
      model_invoke (guide_prompt city) w = (Raise e, w1) ->
      main_travel_planner city days {| world := w; log := [] |}
      = (Raise e,
         {| world := w1; log := [invoked_model (guide_prompt city)] |}))
  /\ (forall full_response w1 e w2,
        model_invoke (guide_prompt city) w = (Return full_response, w1) ->
        itinerary_model_invoke (plan_prompt city days full_response) w1
        = (Raise e, w2) ->
        main_travel_planner city days {| world := w; log := [] |}
        = (Raise e,
           {| world := w2;
              log := [invoked_model (guide_prompt city);
                      called_generate_itinerary city days
                        (extract_attractions full_response)
                        [txt "Paragliding"; txt "Jet Skiing"];
                      invoked_itinerary_model
                        (plan_prompt city days full_response)] |}))
  /\ (forall full_response w1 itinerary w2 e w3,
        model_invoke (guide_prompt city) w = (Return full_response, w1) ->
        itinerary_model_invoke (plan_prompt city days full_response) w1
        = (Return itinerary, w2) ->
        model_invoke (hotel_prompt city) w2 = (Raise e, w3) ->
        fst (main_travel_planner city days {| world := w; log := [] |})
        = Raise e).
Proof.
  split; [|split].
  - intros e w1 Hguide. unfold main_travel_planner, bindM.
    now rewrite (@travel_guide_run city _ [] _ _ Hguide).
  - intros full_response w1 e w2 Hguide Hplan.
    unfold main_travel_planner, bindM.
    rewrite (@travel_guide_run city _ [] _ _ Hguide).
    cbn [guide_attractions full_guide].
    now rewrite (@generate_itinerary_run city days full_response _ _ _ _ Hplan).
  - intros full_response w1 itinerary w2 e w3 Hguide Hplan Hhotel.
    unfold main_travel_planner, bindM.
    rewrite (@travel_guide_run city _ [] _ _ Hguide).
    cbn [guide_attractions full_guide].
    rewrite (@generate_itinerary_run city days full_response _ _ _ _ Hplan).
    now rewrite (@hotel_recommender_run city _ _ _ _ Hhotel).
Qed.

End Program.

Arguments PNone {float}.
Arguments PBool {float} b.
Arguments PInt {float} z.
Arguments PStr {float} s.
Arguments PList {float} l.
Arguments PDict {float} d.
Arguments geo_request {float date} q.
Arguments usgs_request {float date} starttime endtime.
Arguments error_dict {float} error.
Arguments Marker {A} s.

(* ===================================================================== *)
(** * Runs on concrete worlds *)
(* ===================================================================== *)

(** Stand-ins for the library functions, right on the inputs used below:
    [str.lower] on ASCII text, a float named by the decimal text it was
    read from, the time text of one instant, and [json.loads] on the
    empty list and on text that is no JSON. *)
Definition ascii_lower (s : str) : str :=
  map (fun c => if ((65 <=? c) && (c <=? 90))%N then (c + 32)%N else c) s.

Definition decimal_float (v : pyval str) : res str :=
  match v with
  | PStr s => Return s
  | PFloat f => Return f
  | PInt z => Return (str_of_Z z)
  | _ => Raise TypeError
  end.

Definition nonzero_text (f : str) : bool :=
  negb (str_eqb f (txt "0.0") || str_eqb f (txt "-0.0")).

Definition one_instant (v : pyval str) : res str :=
  match v with
  | PInt 1700000000000 => Return (txt "2023-11-14 22:13:20")
  | _ => Raise ValueError
  end.

Definition loads_empty_list (s : str) : res (pyval str) :=
  if str_eqb s (txt "[]") then Return (PList []) else Raise JSONDecodeError.

Definition delhi_candidates : pyval str :=
  PList [PDict [(txt "lat", PStr (txt "28.6139"));
                (txt "lon", PStr (txt "77.2090"))]].

Definition feature (where_ : string) : pyval str :=
  PDict [(txt "properties",
          PDict [(txt "place", PStr (txt where_));
                 (txt "mag", PInt 5);
                 (txt "time", PInt 1700000000000);
                 (txt "url", PStr (txt "https://earthquake.usgs.gov/e/1"))])].

Definition delhi_catalogue : pyval str :=
  PDict [(txt "features", PList [feature "12 km NW of Delhi, India"])].

Definition tokyo_catalogue : pyval str :=
  PDict [(txt "features",
          PList [feature "Tokyo, Japan"; feature "near Tokyo, Japan"])].

(** A world in which the geocoder finds Delhi, the forecast body does
    not decode, and the catalogue answers with [catalogue]. *)
Definition weather_garbled (catalogue : pyval str) (r : request str str)
  : res (response str) :=
  match r with
  | geo_request _ => Return (Return delhi_candidates)
  | weather_request _ _ _ _ => Return (Raise JSONDecodeError)
  | usgs_request _ _ => Return (Return catalogue)
  end.

(** The same world with the forecast service out of reach. *)
Definition weather_unreachable (r : request str str) : res (response str) :=
  match r with
  | geo_request _ => Return (Return delhi_candidates)
  | weather_request _ _ _ _ => Raise RequestException
  | usgs_request _ _ => Return (Return delhi_catalogue)
  end.

Definition delhi_feed (_ : str) : res (list entry) :=
  Return [{| entry_title := Some (txt "Flood alert in Delhi");
             entry_summary := Some (txt "Heavy rain over the city");
             entry_link := Some (txt "https://www.gdacs.org/a/1") |}].

Definition quiet_feed (_ : str) : res (list entry) :=
  Return [{| entry_title := Some (txt "Cyclone near Manila");
             entry_summary := Some (txt "Winds over Luzon");
             entry_link := Some (txt "https://www.gdacs.org/a/2") |};
          {| entry_title := Some (txt "Drought in Chad");
             entry_summary := Some (txt "No rain since May");
             entry_link := None |}].

(** The report does not depend on what the catalogue answers, as long as
    it answers. *)
Lemma forecast_ignores_catalogue (float date : Type)
    float_truthy lower float_of time1 time2
    (get1 get2 : request float date -> res (response float))
    feed city start_date end_date :
  (forall q, get1 (geo_request q) = get2 (geo_request q)) ->
  (forall la lo a b,
      get1 (weather_request la lo a b) = get2 (weather_request la lo a b)) ->
  (exists r1, get1 (usgs_request start_date end_date) = Return r1) ->
  (exists r2, get2 (usgs_request start_date end_date) = Return r2) ->
  calamity_forecast float_truthy lower float_of time1 get1 feed
    city start_date end_date
  = calamity_forecast float_truthy lower float_of time2 get2 feed
      city start_date end_date.
Proof.
  intros Hgeo Hweather [r1 H1] [r2 H2].
  unfold calamity_forecast, hazards. rewrite Hgeo.
  destruct (get2 (geo_request city)) as [[geo_data|e]|e];
    simpl; auto.
  destruct (negb (truthy float_truthy geo_data)); auto.
  destruct (getitem_0 geo_data) as [first|e]; simpl; auto.
  destruct (getitem_key first (txt "lat")) as [lat_text|e]; simpl; auto.
  destruct (float_of lat_text) as [lat|e]; simpl; auto.
  destruct (getitem_key first (txt "lon")) as [lon_text|e]; simpl; auto.
  destruct (float_of lon_text) as [lon|e]; simpl; auto.
  rewrite Hweather, H1, H2.
  destruct (get2 (weather_request lat lon start_date end_date)); reflexivity.
Qed.

(** C2 (fails on the code). With a forecast body that does not decode,
    a catalogue that reports an earthquake near the city and a feed with
    an alert for it, the function computes the earthquake list and then
    returns a report that has the weather text and the alert but no
    earthquake field; with the forecast service out of reach it returns
    no report at all, the request being made outside the handler. *)
Theorem weather_failure_report_lacks_earthquakes :
  let city := txt "Delhi" in
  let start_date := txt "2023-11-01" in
  let end_date := txt "2023-11-30" in
  calamity_forecast nonzero_text ascii_lower decimal_float one_instant
    (weather_garbled delhi_catalogue) delhi_feed city start_date end_date
  = Return
      (report city (txt "28.6139") (txt "77.2090") (PStr weather_failed)
         (Items [{| event := txt "Flood alert in Delhi";
                    details := txt "Heavy rain over the city";
                    link := txt "https://www.gdacs.org/a/1" |}]))
  /\ earthquakes_of ascii_lower one_instant city (Return delhi_catalogue)
     = Items [{| place := PStr (txt "12 km NW of Delhi, India");
                 magnitude := PInt 5;
                 time := txt "2023-11-14 22:13:20";
                 url := PStr (txt "https://earthquake.usgs.gov/e/1") |}]
  /\ calamity_forecast nonzero_text ascii_lower decimal_float one_instant
       (weather_garbled tokyo_catalogue) delhi_feed city start_date end_date
     = calamity_forecast nonzero_text ascii_lower decimal_float one_instant
         (weather_garbled delhi_catalogue) delhi_feed city start_date end_date
  /\ calamity_forecast nonzero_text ascii_lower decimal_float one_instant
       weather_unreachable delhi_feed city start_date end_date
     = Raise RequestException.
Proof.
  intros city start_date end_date. split; [|split; [|split]].
  - vm_compute. reflexivity.
  - vm_compute. reflexivity.
  - apply forecast_ignores_catalogue; intros; try reflexivity;
      eexists; reflexivity.
  - vm_compute. reflexivity.
Qed.


(** C7 at the catalogue of the specification: entries for Tokyo, asked
    for Delhi. *)
Lemma unmatched_places_witness :
  earthquakes_of ascii_lower one_instant (txt "Delhi") (Return tokyo_catalogue)
  = Items [].
Proof.
  eapply (unmatched_places_leave_no_earthquake ascii_lower one_instant
            (txt "Delhi") tokyo_catalogue).
  - reflexivity.
  - repeat constructor; eexists; eexists; repeat split; reflexivity.
Defined.

(** C8 on a feed that does not name Delhi: the field is the marker, and
    the report of the run carries it. *)
Lemma no_matching_alert_witness :
  alerts_field ascii_lower quiet_feed (txt "Delhi") = Marker no_gdacs_alerts
  /\ calamity_forecast nonzero_text ascii_lower decimal_float one_instant
       (weather_garbled tokyo_catalogue) quiet_feed
       (txt "Delhi") (txt "2023-11-01") (txt "2023-11-30")
     = Return (report (txt "Delhi") (txt "28.6139") (txt "77.2090")
                 (PStr weather_failed) (Marker no_gdacs_alerts)).
Proof.
  destruct (@no_matching_alert_gives_marker str nonzero_text ascii_lower
              decimal_float one_instant str (weather_garbled tokyo_catalogue)
              quiet_feed (txt "Delhi") (txt "2023-11-01") (txt "2023-11-30")
              _ eq_refl) as [Hfield _].
  - repeat constructor; eexists; eexists; repeat split; reflexivity.
  - split; [exact Hfield | reflexivity].
Defined.

Definition question_mark (_ : pyval str) : str := txt "?".



(* ===================================================================== *)
(** * More runs on concrete worlds *)
(* ===================================================================== *)

(** With backslashes where the pattern asks for them, names do come out,
    made of the few characters the class allows. *)
Example backslashed_guide_yields_attractions :
  extract_attractions
    (txt "1\.\Swss-w's 2\.\Www&s 3\.\S's, 1\.\Swss-w's -\.\Ab")
  = [txt "Swss-w's"; txt "Www&s"; txt "S's,"].
Proof. reflexivity. Qed.

(** X2 on cost lines that spell the currency out. *)
Lemma total_cost_without_sign_witness :
  calculate_total_cost
    (txt "Day 1:" ++ [LF] ++ txt "- Estimated cost: 500 rupees" ++ [LF]
     ++ txt "Day 2:" ++ [LF] ++ txt "- Estimated cost: Rs. 200")
  = 0%Z.
Proof. apply total_cost_without_sign. reflexivity. Defined.

(** X3 on amounts that no line marks as an estimated cost. *)
Lemma total_cost_without_marker_witness :
  calculate_total_cost
    (txt "Day 1:" ++ [LF] ++ txt "- estimated cost: $500" ++ [LF]
     ++ txt "- Dinner: " ++ [rupee] ++ txt "900")
  = 0%Z.
Proof. apply total_cost_without_marker. reflexivity. Defined.

(** X6 on the numbered list. *)
Lemma attractions_empty_without_backslash_witness :
  extract_attractions numbered_guide = [].
Proof.
  apply attractions_empty_without_backslash.
  intros H. vm_compute in H.
  repeat (destruct H as [H|H]; [discriminate H|]). exact H.
Defined.

(** A stand-in for [json.loads] that knows one hotel list. *)
Definition taj_listing : str :=
  txt "[{" ++ [dquote] ++ txt "name" ++ [dquote] ++ txt ": " ++ [dquote]
  ++ txt "Taj Palace" ++ [dquote] ++ txt ", " ++ [dquote] ++ txt "location"
  ++ [dquote] ++ txt ": " ++ [dquote] ++ txt "Chanakyapuri, Delhi"
  ++ [dquote] ++ txt "}]".

Definition loads_taj (s : str) : res (pyval str) :=
  if str_eqb s taj_listing then
    Return (PList [PDict [(txt "name", PStr (txt "Taj Palace"));
                          (txt "location", PStr (txt "Chanakyapuri, Delhi"))]])
  else Raise JSONDecodeError.


Definition delhi_quake : earthquake str :=
  {| place := PStr (txt "12 km NW of Delhi, India");
     magnitude := PInt 5;
     time := txt "2023-11-14 22:13:20";
     url := PStr (txt "https://earthquake.usgs.gov/e/1") |}.


Definition placeless_catalogue : pyval str :=
  PDict [(txt "features",
          PList [feature "12 km NW of Delhi, India";
                 PDict [(txt "properties",
                         PDict [(txt "place", PNone);
                                (txt "mag", PInt 5)])]])].

(** X10 on a catalogue whose second feature has a null place. *)
Lemma placeless_feature_spoils_the_list_witness :
  earthquakes_of ascii_lower one_instant (txt "Delhi")
    (Return placeless_catalogue)
  = Marker usgs_failed.
Proof.
  eapply (@placeless_feature_spoils_the_list str ascii_lower one_instant
            (txt "Delhi") placeless_catalogue _
            (PDict [(txt "properties",
                     PDict [(txt "place", PNone); (txt "mag", PInt 5)])])).
  - reflexivity.
  - right. now left.
  - intros properties place_info H. injection H as <-. discriminate.
Defined.


(** A geocoder that finds nothing. *)
Definition nowhere (r : request str str) : res (response str) :=
  match r with
  | geo_request _ => Return (Return (PList []))
  | _ => Raise RequestException
  end.

(** X12 where the place is not found. *)
Lemma error_values_come_from_geocoding_witness :
  (exists e,
      nowhere (geo_request (txt "Atlantis")) = Return (Raise e)
      /\ location_not_found (txt "Atlantis") = geo_parse_error)
  \/ (exists geo_data,
        nowhere (geo_request (txt "Atlantis")) = Return (Return geo_data)
        /\ truthy nonzero_text geo_data = false
        /\ location_not_found (txt "Atlantis")
           = location_not_found (txt "Atlantis")).
Proof.
  apply (@error_values_come_from_geocoding str nonzero_text ascii_lower
           decimal_float one_instant str nowhere quiet_feed
           (txt "Atlantis") (txt "2023-11-01") (txt "2023-11-30")).
  reflexivity.
Defined.

(** Backends that answer by the template asked for, counting the calls. *)
Definition by_name (t : template) (_ : list (str * pyval str)) : str :=
  match t with
  | travel_prompt => txt "guide"
  | prompt => txt "hotels"
  | itinerary_prompt => txt "itinerary"
  end.

Definition canned_model (p : str) (calls : nat) : res str * nat :=
  (Return (if str_eqb p (txt "guide") then numbered_guide else taj_listing),
   S calls).

Definition canned_planner (_ : str) (calls : nat) : res str * nat :=
  (Return two_day_itinerary, S calls).

